(** * memorial: audio features, preset rotation and verse timing

    A shallow embedding of the core logic of the installation:
    - [Hydra]   : the preset scheduler of [createHydraController]
                  ([runPreset], [startScheduler]) together with the part of
                  the host's interval timers it relies on;
    - [Audio]   : [AudioInput.update] (banding and smoothing);
    - [Overlay] : the verse overlay ([nextVerse], [wrapLines], [p.draw]).
    The properties follow in [HydraFacts], [AudioFacts] and [OverlayFacts].

    JavaScript numbers are modelled exactly: integers as [Z], fractional
    quantities (times in milliseconds, features, widths) as rationals [Q].
    [Audio64] repeats [AudioInput.update] in binary64 arithmetic, for the
    properties that rounding decides.  Strings are sequences of UTF-16
    code units. *)

From Stdlib Require Import ZArith QArith Qround Qminmax Qabs Lqa.
From Stdlib Require Import Qpower.
From Stdlib Require Import List Bool Lia.
From Stdlib Require String Ascii.
From Stdlib Require Floats Uint63.
Import ListNotations.

(* ================================================================== *)
(** * Hydra background controller: preset scheduler                    *)
(* ================================================================== *)

Module Hydra.
Local Open Scope Z_scope.

(** Operations issued to the external render target. *)
Inductive RenderOp : Type :=
| Solid                 (* window.solid(0, 0, 0, 1).out() *)
| Pass (n : nat).       (* the body of presets[n] *)

(** The [presets] array: eight render passes, identified by position. *)
Definition presets : list RenderOp :=
  [Pass 0; Pass 1; Pass 2; Pass 3; Pass 4; Pass 5; Pass 6; Pass 7].

Definition presetCount : Z := Z.of_nat (length presets).

(** Exceptions a call can end with. *)
Inductive Error : Type :=
| TypeError             (* presets[idx] is undefined: not a function *)
| PresetFault.          (* raised inside the body of a preset *)

Inductive Completion : Type :=
| Normal
| Throw (e : Error).

(** Interval timers of the host.  A handle is a positive integer, hence
    truthy in [if (presetTimer)]. *)
Definition handle := positive.

Record Interval : Type := mkInterval { ivHandle : handle; ivPeriod : Z }.

(** The closure variables [idx] and [presetTimer], and the part of the
    host the controller acts on: the set of active intervals (each one
    created by [startScheduler], so each one calls [runPreset(idx + 1)]),
    the next free handle, the operations received by the render target
    (newest first) and the exceptions reported by the timer dispatch. *)
Record World : Type := mkWorld {
  idx         : Z;
  presetTimer : option handle;
  intervals   : list Interval;
  nextHandle  : handle;
  target      : list RenderOp;
  reported    : list Error
}.

Definition init : World :=
  {| idx := 0; presetTimer := None; intervals := []; nextHandle := 1%positive;
     target := []; reported := [] |}.

Definition set_idx (v : Z) (w : World) : World :=
  {| idx := v; presetTimer := presetTimer w; intervals := intervals w;
     nextHandle := nextHandle w; target := target w; reported := reported w |}.

Definition set_presetTimer (v : option handle) (w : World) : World :=
  {| idx := idx w; presetTimer := v; intervals := intervals w;
     nextHandle := nextHandle w; target := target w; reported := reported w |}.

Definition emit (op : RenderOp) (w : World) : World :=
  {| idx := idx w; presetTimer := presetTimer w; intervals := intervals w;
     nextHandle := nextHandle w; target := op :: target w;
     reported := reported w |}.

Definition report (e : Error) (w : World) : World :=
  {| idx := idx w; presetTimer := presetTimer w; intervals := intervals w;
     nextHandle := nextHandle w; target := target w;
     reported := e :: reported w |}.

(** [setInterval(cb, ms)]: registers a repeating timer under a fresh handle. *)
Definition setInterval (ms : Z) (w : World) : handle * World :=
  (nextHandle w,
   {| idx := idx w; presetTimer := presetTimer w;
      intervals := mkInterval (nextHandle w) ms :: intervals w;
      nextHandle := Pos.succ (nextHandle w);
      target := target w; reported := reported w |}).

(** [clearInterval(h)]. *)
Definition clearInterval (h : handle) (w : World) : World :=
  {| idx := idx w; presetTimer := presetTimer w;
     intervals := filter (fun iv => negb (Pos.eqb (ivHandle iv) h)) (intervals w);
     nextHandle := nextHandle w; target := target w; reported := reported w |}.

(** [presets[i]]: [undefined] outside [0 .. length-1]. *)
Definition lookup (i : Z) : option RenderOp :=
  if i <? 0 then None else nth_error presets (Z.to_nat i).

(** [runPreset(i)].  [%] is the JavaScript remainder, which takes the sign
    of the dividend ([Z.rem]).  [fault] tells whether the body of the
    selected preset raises. *)
Definition runPreset (fault : bool) (i : Z) (w : World) : World * Completion :=
  let w1 := set_idx (Z.rem (i + presetCount) presetCount) w in
  let w2 := emit Solid w1 in
  match lookup (idx w2) with
  | None => (w2, Throw TypeError)
  | Some p => (emit p w2, if fault then Throw PresetFault else Normal)
  end.

(** [startScheduler(ms)], statement by statement. *)
Definition start_run (fault : bool) (w : World) : World * Completion :=
  runPreset fault 0 w.

Definition start_clear (w : World) : World :=
  match presetTimer w with
  | Some h => clearInterval h w
  | None => w
  end.

Definition start_set (ms : Z) (w : World) : World :=
  let '(h, w') := setInterval ms w in set_presetTimer (Some h) w'.

Definition startScheduler (fault : bool) (ms : Z) (w : World)
  : World * Completion :=
  match start_run fault w with
  | (w1, Throw e) => (w1, Throw e)
  | (w1, Normal) => (start_set ms (start_clear w1), Normal)
  end.

(** The worlds between the statements of one [startScheduler] call. *)
Definition start_points (fault : bool) (ms : Z) (w : World) : list World :=
  match start_run fault w with
  | (w1, Throw _) => [w1]
  | (w1, Normal) => [w1; start_clear w1; start_set ms (start_clear w1)]
  end.

Definition getPresetIndex (w : World) : Z := idx w.

(** The callback of the rotation timer, [() => runPreset(idx + 1)], as the
    host runs it: an exception leaving the callback is reported and the
    interval stays registered. *)
Definition callback (fault : bool) (w : World) : World :=
  match runPreset fault (idx w + 1) w with
  | (w', Normal) => w'
  | (w', Throw e) => report e w'
  end.

Definition active (h : handle) (w : World) : bool :=
  existsb (fun iv => Pos.eqb (ivHandle iv) h) (intervals w).

(** The host fires interval [h]: nothing happens unless it is registered. *)
Definition fire (fault : bool) (h : handle) (w : World) : World :=
  if active h w then callback fault w else w.

(** One scheduled tick of the rotation timer. *)
Definition tick (fault : bool) (w : World) : World :=
  match presetTimer w with
  | Some h => fire fault h w
  | None => w
  end.

Fixpoint ticks (faults : list bool) (w : World) : World :=
  match faults with
  | [] => w
  | f :: fs => ticks fs (tick f w)
  end.

(** The callback run once per element of [faults], whoever triggers it. *)
Fixpoint callbacks (faults : list bool) (w : World) : World :=
  match faults with
  | [] => w
  | f :: fs => callbacks fs (callback f w)
  end.

(** What can happen to a controller: calls of its two functions and
    the host firing an interval. *)
Inductive Event : Type :=
| EvStart (fault : bool) (ms : Z)
| EvRun (fault : bool) (i : Z)
| EvFire (fault : bool) (h : handle).

Definition step (e : Event) (w : World) : World :=
  match e with
  | EvStart f ms => fst (startScheduler f ms w)
  | EvRun f i => fst (runPreset f i w)
  | EvFire f h => fire f h w
  end.

(** Every world passed through while handling an event, the last one
    being [step e w]. *)
Definition points (e : Event) (w : World) : list World :=
  match e with
  | EvStart f ms => start_points f ms w
  | _ => [step e w]
  end.

Fixpoint exec (es : list Event) (w : World) : World :=
  match es with
  | [] => w
  | e :: es' => exec es' (step e w)
  end.

Fixpoint history (es : list Event) (w : World) : list World :=
  match es with
  | [] => []
  | e :: es' => points e w ++ history es' (step e w)
  end.

(** A world whose rotation timer is running. *)
Definition rotating (w : World) : Prop :=
  - presetCount < idx w
  /\ exists h, presetTimer w = Some h /\ active h w = true.

(** The invariant of the controller: the index is a remainder, the
    handle in [presetTimer] has been handed out, and the only interval
    that can be registered is the one [presetTimer] names. *)
Definition single_timer (w : World) : Prop :=
  intervals w = []
  \/ exists h ms, presetTimer w = Some h /\ intervals w = [mkInterval h ms].

Record Inv (w : World) : Prop := mkInv {
  inv_idx    : - presetCount < idx w < presetCount;
  inv_handle : forall h, presetTimer w = Some h -> (h < nextHandle w)%positive;
  inv_single : single_timer w
}.

(** The restart property in its unconditional form: every call of
    [startScheduler] cancels the timer that was running, runs preset 0 and
    leaves a new timer of period [ms] as the only one. *)
Definition every_start_replaces_timer : Prop :=
  forall (es : list Event) (f : bool) (ms : Z),
    let w := exec es init in
    let w' := fst (startScheduler f ms w) in
    (forall h, presetTimer w = Some h -> active h w' = false)
    /\ idx w' = 0
    /\ exists h', presetTimer w' = Some h' /\ intervals w' = [mkInterval h' ms].

(** The body of the rotation timer's callback, [runPreset(idx + 1)], with
    the completion it ends in: what the controller itself does on a tick,
    before the host sees the outcome. *)
Definition advance (fault : bool) (w : World) : World * Completion :=
  runPreset fault (idx w + 1) w.

(** The body of the callback run once per element of [faults], whatever
    each run ends in. *)
Fixpoint advances (faults : list bool) (w : World) : World :=
  match faults with
  | [] => w
  | f :: fs => advances fs (fst (advance f w))
  end.

(** Modelled from the spec: a preset that raises during a scheduled tick is
    recovered inside the scheduler, that is, the timer callback completes
    normally in every world the controller reaches. *)
Definition failure_recovered_locally : Prop :=
  forall es : list Event, snd (advance true (exec es init)) = Normal.

End Hydra.

(* ================================================================== *)
(** * WebAudio input: level, bands and smoothing                       *)
(* ================================================================== *)

Module Audio.
Local Open Scope Q_scope.

(** The fields of [AudioInput] that [update] reads and writes.
    [analyser] is [false] for [null]. *)
Record AudioInput : Type := mkAudioInput {
  analyser : bool;
  level    : Q;
  bass     : Q;
  mid      : Q;
  treble   : Q;
  _smooth  : Q
}.

(** [new AudioInput()]. *)
Definition constructor : AudioInput :=
  {| analyser := false; level := 0; bass := 0; mid := 0; treble := 0;
     _smooth := 85 # 100 |}.

(** A division whose result is a finite number: [None] when the divisor is
    zero (JavaScript would yield an infinity or NaN). *)
Definition div (a b : Q) : option Q :=
  if Qeq_bool b 0 then None else Some (a / b).

(** [data[i]] on a typed array: [None] is [undefined], which is what an
    index outside the buffer reads. *)
Definition readBin (data : list Z) (i : Z) : option Z :=
  if (i <? 0)%Z then None else nth_error data (Z.to_nat i).

(** [for (let i = from; i < to; i++) s += data[i]], started with sum [s]
    and [count] iterations to go.  The sum is [None] (NaN) once an
    [undefined] has been added to it. *)
Fixpoint sumLoop (data : list Z) (i : Z) (count : nat) (s : option Z)
  : option Z :=
  match count with
  | O => s
  | S k =>
      sumLoop data (i + 1) k
        match s, readBin data i with
        | Some a, Some x => Some (a + x)%Z
        | _, _ => None
        end
  end.

(** The closure [avg] of [update]; a NaN sum gives a NaN average. *)
Definition avg (dataFreq : list Z) (from to : Z) : option Q :=
  match sumLoop dataFreq from (Z.to_nat (to - from)) (Some 0%Z) with
  | None => None
  | Some s =>
      match div (inject_Z s) (inject_Z (Z.max 1 (to - from))) with
      | Some q => div q 255
      | None => None
      end
  end.

(** Band limits, [Math.floor(n * 0.15)] and [Math.floor(n * 0.55)] on the
    exact product; [Audio64.b1] and [Audio64.m1] are the same limits on
    the binary64 product. *)
Definition b0 : Z := 0.
Definition b1 (n : Z) : Z := Qfloor (inject_Z n * (15 # 100)).
Definition m1 (n : Z) : Z := Qfloor (inject_Z n * (55 # 100)).
Definition t1 (n : Z) : Z := n.

(** The sum of squares of the centred, normalised time-domain samples. *)
Fixpoint sumSquares (dataTime : list Z) (sum : Q) : Q :=
  match dataTime with
  | [] => sum
  | x :: rest =>
      let v := (inject_Z x - 128) / 128 in sumSquares rest (sum + v * v)
  end.

(** The instantaneous values computed by one [update], when all four are
    finite numbers. *)
Record Raw : Type := mkRaw {
  nextLevel : Q; nextBass : Q; nextMid : Q; nextTreble : Q
}.

(** The values a call of [update] computes, given the square root of the
    host.  [None] stands for the calls in which one of them is not a
    finite number: with an empty time buffer the mean square is 0/0 and the
    code stores NaN as [level], next to finite band values; a state with a
    NaN feature is outside this record. *)
Definition raw (sqrt : Q -> Q) (dataTime dataFreq : list Z) : option Raw :=
  match div (sumSquares dataTime 0) (inject_Z (Z.of_nat (length dataTime))) with
  | None => None
  | Some meanSquare =>
      let rms := sqrt meanSquare in
      let n := Z.of_nat (length dataFreq) in
      match avg dataFreq b0 (b1 n), avg dataFreq (b1 n) (m1 n),
            avg dataFreq (m1 n) (t1 n) with
      | Some nb, Some nm, Some nt =>
          Some {| nextLevel := Qmin 1 (rms * 2); nextBass := nb;
                  nextMid := nm; nextTreble := nt |}
      | _, _, _ => None
      end
  end.

(** "Smooth everything for stability", on exact rationals; [Audio64]
    below has the same update in the binary64 arithmetic of the code. *)
Definition smooth (a : AudioInput) (r : Raw) : AudioInput :=
  let k := _smooth a in
  {| analyser := analyser a;
     level  := level a  * k + nextLevel r  * (1 - k);
     bass   := bass a   * k + nextBass r   * (1 - k);
     mid    := mid a    * k + nextMid r    * (1 - k);
     treble := treble a * k + nextTreble r * (1 - k);
     _smooth := _smooth a |}.

(** [update()], given the buffers the analyser fills in and the square
    root of the host; [None] as for [raw]. *)
Definition update (sqrt : Q -> Q) (dataTime dataFreq : list Z)
           (a : AudioInput) : option AudioInput :=
  if negb (analyser a) then Some a
  else match raw sqrt dataTime dataFreq with
       | Some r => Some (smooth a r)
       | None => None
       end.

(** The four features. *)
Inductive Feature : Type := Level | Bass | Mid | Treble.

Definition feature (f : Feature) (a : AudioInput) : Q :=
  match f with
  | Level => level a | Bass => bass a | Mid => mid a | Treble => treble a
  end.

Definition target (f : Feature) (r : Raw) : Q :=
  match f with
  | Level => nextLevel r | Bass => nextBass r
  | Mid => nextMid r | Treble => nextTreble r
  end.

(** An audio object as constructed, with arbitrary feature values. *)
Definition withFeatures (l b m t : Q) : AudioInput :=
  {| analyser := true; level := l; bass := b; mid := m; treble := t;
     _smooth := _smooth constructor |}.

(** [n] calls of [update] on the same buffers. *)
Fixpoint updateN (sqrt : Q -> Q) (dataTime dataFreq : list Z) (n : nat)
         (a : AudioInput) : option AudioInput :=
  match n with
  | O => Some a
  | S k => match updateN sqrt dataTime dataFreq k a with
           | Some a' => update sqrt dataTime dataFreq a'
           | None => None
           end
  end.

(** The bins [from .. to-1] of a buffer. *)
Definition bins (data : list Z) (from to : Z) : list Z :=
  firstn (Z.to_nat (to - from)) (skipn (Z.to_nat from) data).

Definition total (l : list Z) : Z := fold_right Z.add 0%Z l.

Definition isByte (x : Z) : Prop := (0 <= x <= 255)%Z.

End Audio.

(* ================================================================== *)
(** * Verse overlay: timing, text and line wrapping                    *)
(* ================================================================== *)

Module Overlay.
Local Open Scope Q_scope.

(** ** Strings *)

(** A JavaScript string: its UTF-16 code units. *)
Definition jsstring := list N.

(** An ASCII literal as a JavaScript string. *)
Definition u (s : String.string) : jsstring :=
  map Ascii.N_of_ascii (String.list_ascii_of_string s).

Definition truthy (s : jsstring) : bool :=
  match s with [] => false | _ :: _ => true end.

(** White space and line terminators: the class [\s] of regular
    expressions, which is also what [trim] removes. *)
Definition isWhiteSpace (c : N) : bool :=
  (  N.eqb c 9 || N.eqb c 10 || N.eqb c 11 || N.eqb c 12 || N.eqb c 13
  || N.eqb c 32 || N.eqb c 160 || N.eqb c 5760
  || (N.leb 8192 c && N.leb c 8202)
  || N.eqb c 8232 || N.eqb c 8233 || N.eqb c 8239 || N.eqb c 8287
  || N.eqb c 12288 || N.eqb c 65279)%bool.

Fixpoint dropWhile (p : N -> bool) (s : jsstring) : jsstring :=
  match s with
  | [] => []
  | c :: r => if p c then dropWhile p r else s
  end.

(** [s.trim()]. *)
Definition trim (s : jsstring) : jsstring :=
  rev (dropWhile isWhiteSpace (rev (dropWhile isWhiteSpace s))).

(** [s.split(sep)] for a one-unit separator: empty pieces are kept. *)
Fixpoint split (sep : N) (s : jsstring) : list jsstring :=
  match s with
  | [] => [[]]
  | c :: r =>
      if N.eqb c sep then [] :: split sep r
      else match split sep r with
           | piece :: pieces => (c :: piece) :: pieces
           | [] => [[c]]
           end
  end.

(** [s.split(/\s+/)]: a maximal run of white space is one separator, so
    empty pieces arise only at the two ends.  [inRun] tells that the
    previous unit already belonged to the current separator. *)
Fixpoint splitSpaces (inRun : bool) (s : jsstring) : list jsstring :=
  match s with
  | [] => [[]]
  | c :: r =>
      if isWhiteSpace c then
        if inRun then splitSpaces true r else [] :: splitSpaces true r
      else match splitSpaces false r with
           | piece :: pieces => (c :: piece) :: pieces
           | [] => [[c]]
           end
  end.

(** [s.slice(0, e)]; a negative [e] counts from the end. *)
Definition slice0 (s : jsstring) (e : Z) : jsstring :=
  if (e <? 0)%Z then firstn (Z.to_nat (Z.max 0 (Z.of_nat (length s) + e))) s
  else firstn (Z.to_nat e) s.

(** ** Line wrapping *)

(** The inner loop of [wrapLines] over the words of one paragraph:
    [line] is the line being filled, [lines] the lines pushed so far. *)
Fixpoint wordLoop (textWidth : jsstring -> Q) (maxWidth : Q)
         (words : list jsstring) (line : jsstring) (lines : list jsstring)
  : jsstring * list jsstring :=
  match words with
  | [] => (line, lines)
  | w :: rest =>
      let test := if truthy line then line ++ [32%N] ++ w else w in
      if Qle_bool (textWidth test) maxWidth
      then wordLoop textWidth maxWidth rest test lines
      else wordLoop textWidth maxWidth rest w
             (if truthy line then lines ++ [line] else lines)
  end.

(** The body of the loop over paragraphs. *)
Definition wrapParagraph (textWidth : jsstring -> Q) (maxWidth : Q)
           (lines : list jsstring) (para : jsstring) : list jsstring :=
  if truthy (trim para) then
    let '(line, lines') :=
      wordLoop textWidth maxWidth (splitSpaces false para) [] lines in
    if truthy line then lines' ++ [line] else lines'
  else lines ++ [[]].

(** [wrapLines(p, str, maxWidth)]; [textWidth] is [p.textWidth]. *)
Definition wrapLines (textWidth : jsstring -> Q) (str : jsstring)
           (maxWidth : Q) : list jsstring :=
  fold_left (wrapParagraph textWidth maxWidth) (split 10 str) [].

(** The words of a string: its maximal runs of units that are not white
    space.  Used to say what wrapping keeps. *)
Fixpoint pieces (s : jsstring) : list jsstring :=
  match s with
  | [] => [[]]
  | c :: r =>
      if isWhiteSpace c then [] :: pieces r
      else match pieces r with
           | piece :: rest => (c :: piece) :: rest
           | [] => [[c]]
           end
  end.

Definition wordsOf (s : jsstring) : list jsstring := filter truthy (pieces s).

Definition noSpace (s : jsstring) : bool :=
  forallb (fun c => negb (isWhiteSpace c)) s.

(** ** Verses and palette *)

Record Verse : Type := mkVerse { ref : jsstring; text : jsstring }.

Import String.
Local Open Scope string_scope.

Definition verses : list Verse := [
  {| ref := u "Psalm 119:105";
     text := u "Thy word is a lamp unto my feet, and a light unto my path." |};
  {| ref := (u "Proverbs 3:5" ++ [8211%N] ++ u "6")%list;
     text := u "Trust in the LORD with all thine heart; and lean not unto thine own understanding. In all thy ways acknowledge him, and he shall direct thy paths." |};
  {| ref := u "Isaiah 41:10";
     text := u "Fear thou not; for I am with thee: be not dismayed; for I am thy God: I will strengthen thee; yea, I will help thee; yea, I will uphold thee with the right hand of my righteousness." |};
  {| ref := u "Matthew 11:28";
     text := u "Come unto me, all ye that labour and are heavy laden, and I will give you rest." |};
  {| ref := u "John 14:6";
     text := u "Jesus saith unto him, I am the way, the truth, and the life: no man cometh unto the Father, but by me." |};
  {| ref := u "Romans 8:28";
     text := u "And we know that all things work together for good to them that love God, to them who are the called according to his purpose." |};
  {| ref := u "2 Timothy 1:7";
     text := u "For God hath not given us the spirit of fear; but of power, and of love, and of a sound mind." |};
  {| ref := (u "Philippians 4:6" ++ [8211%N] ++ u "7")%list;
     text := u "Be careful for nothing; but in every thing by prayer and supplication with thanksgiving let your requests be made known unto God. And the peace of God, which passeth all understanding, shall keep your hearts and minds through Christ Jesus." |}
].

Record Color : Type := mkColor { name : String.string; hex : String.string }.

(** [CONFIG.palette]. *)
Definition palette : list Color := [
  mkColor "Sardius" "#A81919";      mkColor "Vermilion" "#894014";
  mkColor "Amber" "#675210";        mkColor "Topaz" "#50590D";
  mkColor "Chrysolyte" "#365E0E";   mkColor "Emerald" "#19620F";
  mkColor "Chrysoprasus" "#0F6224"; mkColor "Beryl" "#0E6042";
  mkColor "Crystal" "#0E5E5E";      mkColor "Chalcedony" "#145A83";
  mkColor "Sapphire" "#1E48C7";     mkColor "Jacinth" "#3F25F6";
  mkColor "Purple" "#751ECB";       mkColor "Amethyst" "#8F18A0";
  mkColor "Scarlet" "#9C177A";      mkColor "Crimson" "#A3194D"
].

Local Close Scope string_scope.

(** [arr[i]] for an integer [i]: [None] is [undefined]. *)
Definition index {A : Type} (arr : list A) (i : Z) : option A :=
  if (i <? 0)%Z then None else nth_error arr (Z.to_nat i).

(** [pickPalette(palette)]; [random] is the value of [Math.random()]. *)
Definition pickPalette (pal : list Color) (random : Q) : option Color :=
  index pal (Qfloor (random * inject_Z (Z.of_nat (List.length pal)))).

(** [clamp01(x)]. *)
Definition clamp01 (x : Q) : Q := Qmax 0 (Qmin 1 x).

(** [buildFullText(v)]. *)
Definition buildFullText (v : Verse) : jsstring :=
  [8220%N] ++ text v ++ [8221%N] ++ [10%N; 10%N] ++ [8212%N; 32%N] ++ ref v.

(** ** Timing *)

(** [verseConfig].  Times and durations are in milliseconds.  The
    quotients by [msPerChar] and [fadeMs] below are those of the rationals,
    which is what the source computes for a non-zero divisor; the
    properties stated about them assume positive durations. *)
Record VerseConfig : Type := mkVerseConfig {
  msPerChar : Q; holdMs : Q; fadeMs : Q; gapMs : Q
}.

(** [CONFIG.verse]. *)
Definition CONFIG_verse : VerseConfig :=
  {| msPerChar := 28; holdMs := 9000; fadeMs := 1000; gapMs := 600 |}.

(** The closure variables of [createVerseOverlay].  [current] and [accent]
    are [None] for [undefined]. *)
Record State : Type := mkState {
  verseIndex   : Z;
  current      : option Verse;
  accent       : option Color;
  startMs      : Q;
  revealDoneMs : Q;
  fadeStartMs  : Q;
  cycleDoneMs  : Q
}.

(** The state after the declarations of [createVerseOverlay]. *)
Definition create (pal : list Color) (random : Q) : State :=
  {| verseIndex := 0; current := index verses 0;
     accent := pickPalette pal random;
     startMs := 0; revealDoneMs := 0; fadeStartMs := 0; cycleDoneMs := 0 |}.

(** The assignment [startMs = p.millis()] of [p.setup]. *)
Definition setup (now : Q) (st : State) : State :=
  {| verseIndex := verseIndex st; current := current st; accent := accent st;
     startMs := now; revealDoneMs := revealDoneMs st;
     fadeStartMs := fadeStartMs st; cycleDoneMs := cycleDoneMs st |}.

(** [nextVerse(nowMs)]. *)
Definition nextVerse (pal : list Color) (random : Q) (nowMs : Q) (st : State)
  : State :=
  let i := Z.rem (verseIndex st + 1) (Z.of_nat (List.length verses)) in
  {| verseIndex := i; current := index verses i;
     accent := pickPalette pal random;
     startMs := nowMs; revealDoneMs := 0; fadeStartMs := 0; cycleDoneMs := 0 |}.

(** A number used as a condition: zero is false. *)
Definition nonzero (x : Q) : bool := negb (Qeq_bool x 0).

(** [Math.floor((now - startMs) / verseConfig.msPerChar)]. *)
Definition charsVisible (cfg : VerseConfig) (now : Q) (st : State) : Z :=
  Qfloor ((now - startMs st) / msPerChar cfg).

(** "Reveal timing": the statement that latches the three timestamps. *)
Definition reveal (cfg : VerseConfig) (totalChars : Z) (now : Q) (st : State)
  : State :=
  if ((totalChars <=? charsVisible cfg now st)%Z
      && Qeq_bool (revealDoneMs st) 0)%bool
  then
    let revealDone := now in
    let fadeStart := revealDone + holdMs cfg in
    {| verseIndex := verseIndex st; current := current st; accent := accent st;
       startMs := startMs st; revealDoneMs := revealDone;
       fadeStartMs := fadeStart;
       cycleDoneMs := fadeStart + fadeMs cfg + gapMs cfg |}
  else st.

(** "Alpha envelope". *)
Definition alphaEnvelope (cfg : VerseConfig) (now : Q) (st : State) : Q :=
  if (nonzero (fadeStartMs st) && Qle_bool (fadeStartMs st) now)%bool
  then let t := (now - fadeStartMs st) / fadeMs cfg in 1 - clamp01 t
  else 1.

(** The statement that moves on to the next verse. *)
Definition cycle (pal : list Color) (random : Q) (now : Q) (st : State)
  : State :=
  if (nonzero (cycleDoneMs st) && Qle_bool (cycleDoneMs st) now)%bool
  then nextVerse pal random now st
  else st.

(** What one frame shows of the text. *)
Record Frame : Type := mkFrame { alpha : Q; lines : list jsstring }.

(** The per-frame inputs: the clock, the random number consumed if the
    verse changes, and the text metrics. *)
Record Tick : Type := mkTick { tickNow : Q; tickRandom : Q }.

(** [p.draw], as far as the state, the opacity and the text go; [None]
    when [current] is [undefined], where [buildFullText] raises.  [maxW] is
    [internal.w - marginX * 2]. *)
Definition draw (cfg : VerseConfig) (pal : list Color)
           (textWidth : jsstring -> Q) (maxW : Q) (tk : Tick) (st : State)
  : option (State * Frame) :=
  match current st with
  | None => None
  | Some v =>
      let now := tickNow tk in
      let full := buildFullText v in
      let shown := charsVisible cfg now st in
      let totalChars := Z.of_nat (List.length full) in
      let st1 := reveal cfg totalChars now st in
      let a := alphaEnvelope cfg now st1 in
      let st2 := cycle pal (tickRandom tk) now st1 in
      let visibleText := slice0 full (Z.min totalChars shown) in
      Some (st2, {| alpha := a; lines := wrapLines textWidth visibleText maxW |})
  end.

(** The state after a sequence of frames. *)
Fixpoint frames (cfg : VerseConfig) (pal : list Color)
         (textWidth : jsstring -> Q) (maxW : Q) (tks : list Tick) (st : State)
  : option State :=
  match tks with
  | [] => Some st
  | tk :: rest =>
      match draw cfg pal textWidth maxW tk st with
      | Some (st', _) => frames cfg pal textWidth maxW rest st'
      | None => None
      end
  end.

(** The first verse under [CONFIG.verse], revealed at 2156 ms: the fade
    starts at 11156 ms and ends at 12156 ms. *)
Definition latched_example : State :=
  reveal CONFIG_verse 77 2156 (setup 0 (create palette 0)).

(** [verses.length]. *)
Definition verseCount : Z := Z.of_nat (List.length verses).

(** The states the overlay passes through keep a valid verse selected. *)
Definition selected (st : State) : Prop :=
  (0 <= verseIndex st < verseCount)%Z
  /\ current st = index verses (verseIndex st).

(** [ps.join(sep)] for a one-unit separator. *)
Fixpoint join (sep : N) (ps : list jsstring) : jsstring :=
  match ps with
  | [] => []
  | [p] => p
  | p :: rest => p ++ sep :: join sep rest
  end.

(** The width bound in its unconditional form: no line is wider than the
    maximum. *)
Definition every_line_fits : Prop :=
  forall (textWidth : jsstring -> Q) (str : jsstring) (maxWidth : Q)
         (l : jsstring),
    In l (wrapLines textWidth str maxWidth) -> textWidth l <= maxWidth.

End Overlay.

(* ================================================================== *)
(** * Hydra background controller: colours and gains                   *)
(* ================================================================== *)

Module Colors.
Import Overlay.
Local Open Scope Q_scope.

(** A JavaScript number as far as [parseInt] and the bit operators tell
    numbers apart: a finite integer, NaN, or an infinity. *)
Inductive Number : Type :=
| NaN
| Infinite
| Finite (z : Z).

(** [s.replace(c, "")] for a one-unit pattern: the first occurrence goes. *)
Fixpoint removeFirst (c : N) (s : jsstring) : jsstring :=
  match s with
  | [] => []
  | x :: rest => if N.eqb x c then rest else x :: removeFirst c rest
  end.

(** The value of a digit of radix 16. *)
Definition hexDigit (c : N) : option Z :=
  if (N.leb 48 c && N.leb c 57)%bool then Some (Z.of_N c - 48)%Z
  else if (N.leb 97 c && N.leb c 102)%bool then Some (Z.of_N c - 87)%Z
  else if (N.leb 65 c && N.leb c 70)%bool then Some (Z.of_N c - 55)%Z
  else None.

(** The longest prefix of radix-16 digits, read from the left; [None] when
    no digit has been read. *)
Fixpoint digits (s : jsstring) (acc : option Z) : option Z :=
  match s with
  | [] => acc
  | c :: rest =>
      match hexDigit c with
      | Some d =>
          digits rest
            (Some (16 * match acc with Some a => a | None => 0 end + d)%Z)
      | None => acc
      end
  end.

(** The double nearest to a non-negative integer (ties to even). *)
Definition roundDouble (v : Z) : Number :=
  if (v <? 2 ^ 53)%Z then Finite v
  else
    let e := (Z.log2 v - 52)%Z in
    let q := (v / 2 ^ e)%Z in
    let rest := (v mod 2 ^ e)%Z in
    let half := (2 ^ (e - 1))%Z in
    let q' := if (Z.ltb half rest || (Z.eqb rest half && Z.odd q))%bool
              then (q + 1)%Z else q in
    if (2 ^ 1024 <=? q' * 2 ^ e)%Z then Infinite else Finite (q' * 2 ^ e).

(** [parseInt(s, 16)]: leading white space, a sign, an optional [0x]
    prefix, then as many digits as there are. *)
Definition parseInt16 (s : jsstring) : Number :=
  let s1 := dropWhile isWhiteSpace s in
  let '(negative, s2) :=
    match s1 with
    | c :: rest =>
        if N.eqb c 45 then (true, rest)
        else if N.eqb c 43 then (false, rest) else (false, s1)
    | [] => (false, s1)
    end in
  let s3 :=
    match s2 with
    | a :: b :: rest =>
        if (N.eqb a 48 && (N.eqb b 120 || N.eqb b 88))%bool then rest else s2
    | _ => s2
    end in
  match digits s3 None with
  | None => NaN
  | Some v =>
      match roundDouble v with
      | Finite z => Finite (if negative then - z else z)
      | other => other
      end
  end.

(** The conversion the bit operators apply to their operands. *)
Definition toInt32 (n : Number) : Z :=
  match n with
  | Finite z => ((z + 2 ^ 31) mod 2 ^ 32 - 2 ^ 31)%Z
  | _ => 0%Z
  end.

Record RGB : Type := mkRGB { red : Q; green : Q; blue : Q }.

(** [hexToRgb01(hex)]. *)
Definition hexToRgb01 (hex : jsstring) : RGB :=
  let h := trim (removeFirst 35 hex) in
  let n := parseInt16 h in
  {| red   := inject_Z (Z.land (Z.shiftr (toInt32 n) 16) 255) / 255;
     green := inject_Z (Z.land (Z.shiftr (toInt32 n) 8) 255) / 255;
     blue  := inject_Z (Z.land (toInt32 n) 255) / 255 |}.

(** The controller's [pickPalette(palette)]: the chosen colour with its
    components; [None] when the chosen element is [undefined], where
    reading [c.hex] raises. *)
Definition pickPalette (pal : list Color) (random : Q) : option (Color * RGB) :=
  match index pal (Qfloor (random * inject_Z (Z.of_nat (length pal)))) with
  | Some c => Some (c, hexToRgb01 (u (hex c)))
  | None => None
  end.

(** [gain(x, k)] and the four amplified features. *)
Definition gain (x k : Q) : Q := clamp01 (x * k).

Definition AL (a : Audio.AudioInput) : Q := gain (Audio.level a) (32 # 10).
Definition BA (a : Audio.AudioInput) : Q := gain (Audio.bass a) 2.
Definition MI (a : Audio.AudioInput) : Q := gain (Audio.mid a) (25 # 10).
Definition TR (a : Audio.AudioInput) : Q := gain (Audio.treble a) 3.

(** The stepped parameters of two presets:
    [.repeat(2 + Math.floor(3 * BA()), 4)] and
    [.kaleid(3 + Math.floor(4 * BA()))]. *)
Definition repeatX (a : Audio.AudioInput) : Z := (2 + Qfloor (3 * BA a))%Z.
Definition kaleidSides (a : Audio.AudioInput) : Z := (3 + Qfloor (4 * BA a))%Z.

(** An event that is not a manual run with an argument below
    [-presets.length]. *)
Definition inRange (e : Hydra.Event) : Prop :=
  match e with
  | Hydra.EvRun _ i => (- Hydra.presetCount <= i)%Z
  | _ => True
  end.

(** [c] is the radix-16 digit of value [d]. *)
Definition digit (c : N) (d : Z) : Prop := hexDigit c = Some d.

(** The value of a list of radix-16 digit values, most significant first. *)
Definition hexValue (ds : list Z) : Z :=
  fold_left (fun a d => (16 * a + d)%Z) ds 0%Z.

(** What the render target has received, newest first, is made of
    clearing passes, each followed at most by the one preset it preceded. *)
Fixpoint clearedFirst (ops : list Hydra.RenderOp) : bool :=
  match ops with
  | [] => true
  | Hydra.Solid :: rest => clearedFirst rest
  | Hydra.Pass n :: Hydra.Solid :: rest => (Nat.ltb n 8 && clearedFirst rest)%bool
  | Hydra.Pass _ :: _ => false
  end.

End Colors.

(* ================================================================== *)
(** * Verse overlay: the rest of a frame                               *)
(* ================================================================== *)

Module Sketch.
Import Overlay.
Local Open Scope Q_scope.

(** [Math.round(x)]. *)
Definition round (x : Q) : Z := Qfloor (x + (1 # 2)).

(** [p.random(lo, hi)] for [lo <= hi]; [r] is the underlying uniform
    number. *)
Definition random (r lo hi : Q) : Q := r * (hi - lo) + lo.

(** The wobble: [j], then [jx] (or [jy]) given the uniform number it
    consumes. *)
Definition jitterSize (level : Q) : Z := round (level * (125 # 100)).

Definition jitter (level r : Q) : Q :=
  let j := jitterSize level in
  if (0 <? j)%Z then random r (- inject_Z j) (inject_Z j) else 0.

(** The opacity byte of the plate behind the text: [255 * plateA]. *)
Definition plateFill (alpha : Q) : Q := 255 * ((22 # 100) * alpha).

(** The text shown by a frame before wrapping:
    [full.slice(0, Math.min(totalChars, charsVisible))]. *)
Definition visibleText (cfg : VerseConfig) (now : Q) (st : State) (v : Verse)
  : jsstring :=
  let full := buildFullText v in
  slice0 full (Z.min (Z.of_nat (length full)) (charsVisible cfg now st)).

(** The timestamps of a state are in order: either the three derived ones
    are cleared, or the reveal ended after the start and the two others
    are derived from it. *)
Definition ordered (cfg : VerseConfig) (st : State) : Prop :=
  0 <= startMs st
  /\ ((revealDoneMs st == 0 /\ fadeStartMs st == 0 /\ cycleDoneMs st == 0)
      \/ (startMs st < revealDoneMs st
          /\ fadeStartMs st == revealDoneMs st + holdMs cfg
          /\ cycleDoneMs st == fadeStartMs st + fadeMs cfg + gapMs cfg)).

(** The two non-blank paragraphs of the composed text. *)
Definition quotation (v : Verse) : jsstring := [8220%N] ++ text v ++ [8221%N].
Definition citation (v : Verse) : jsstring := [8212%N; 32%N] ++ ref v.

Definition noNewline (s : jsstring) : bool :=
  forallb (fun c => negb (N.eqb c 10)) s.

(** A whole call of [p.draw]: once the state is updated the border is
    stroked with [accent.hex], which raises when [accent] is [undefined];
    [None] stands for a call that raises, there or in [buildFullText]. *)
Definition drawFrame (cfg : VerseConfig) (pal : list Color)
           (textWidth : jsstring -> Q) (maxW : Q) (tk : Tick) (st : State)
  : option (State * Frame) :=
  match draw cfg pal textWidth maxW tk st with
  | Some (st', fr) =>
      match accent st' with
      | Some _ => Some (st', fr)
      | None => None
      end
  | None => None
  end.

(** The state after a sequence of calls of [p.draw], none of which
    raises. *)
Fixpoint drawFrames (cfg : VerseConfig) (pal : list Color)
         (textWidth : jsstring -> Q) (maxW : Q) (tks : list Tick) (st : State)
  : option State :=
  match tks with
  | [] => Some st
  | tk :: rest =>
      match drawFrame cfg pal textWidth maxW tk st with
      | Some (st', _) => drawFrames cfg pal textWidth maxW rest st'
      | None => None
      end
  end.

End Sketch.

(* ================================================================== *)
(** * Ranges of the audio features                                     *)
(* ================================================================== *)

Module AudioRanges.
Import Audio.
Local Open Scope Q_scope.

(** All four features lie between 0 and 1. *)
Definition unitFeatures (a : AudioInput) : Prop :=
  forall f : Feature, 0 <= feature f a /\ feature f a <= 1.

(** The mean of the squared samples, as [update] computes it for a
    non-empty buffer. *)
Definition meanSquare (dataTime : list Z) : Q :=
  sumSquares dataTime 0 / inject_Z (Z.of_nat (length dataTime)).

End AudioRanges.

(* ================================================================== *)
(** * WebAudio input in binary64 arithmetic                            *)
(* ================================================================== *)

Module Audio64.
Import Floats.
Local Open Scope float_scope.
Local Set Warnings "-inexact-float".

(** A non-negative integer below 2^53 as a number. *)
Definition ofZ (z : Z) : float := PrimFloat.of_uint63 (Uint63.of_Z z).

(** [Math.floor(x)] for a finite [x]. *)
Definition floor (x : float) : Z :=
  match Prim2SF x with
  | S754_finite false m e =>
      if (0 <=? e)%Z then (Z.pos m * 2 ^ e)%Z else Z.shiftr (Z.pos m) (- e)
  | S754_finite true m e =>
      if (0 <=? e)%Z then (- (Z.pos m * 2 ^ e))%Z
      else (- Z.shiftr (Z.pos m + 2 ^ (- e) - 1) (- e))%Z
  | _ => 0%Z
  end.

(** [Math.min(x, y)]: NaN if an argument is, and [-0] below [+0]. *)
Definition min (x y : float) : float :=
  if (is_nan x || is_nan y)%bool then nan
  else if x <? y then x
  else if y <? x then y
  else if get_sign x then x else y.

(** The fields of [AudioInput] that [update] reads and writes, the
    features being any numbers, NaN included. *)
Record AudioInput : Type := mkAudioInput {
  analyser : bool;
  level    : float;
  bass     : float;
  mid      : float;
  treble   : float;
  _smooth  : float
}.

(** [new AudioInput()]. *)
Definition constructor : AudioInput :=
  {| analyser := false; level := 0; bass := 0; mid := 0; treble := 0;
     _smooth := 0.85 |}.


(** [this.dataFreq[i]] as an operand of [+]: [undefined] becomes NaN. *)
Definition readBin (data : list Z) (i : Z) : float :=
  match Audio.readBin data i with
  | Some x => ofZ x
  | None => nan
  end.

(** [for (let i = from; i < to; i++) s += this.dataFreq[i]]. *)
Fixpoint sumLoop (data : list Z) (i : Z) (count : nat) (s : float) : float :=
  match count with
  | O => s
  | S k => sumLoop data (i + 1) k (s + readBin data i)
  end.

(** The closure [avg] of [update]. *)
Definition avg (dataFreq : list Z) (from to : Z) : float :=
  (sumLoop dataFreq from (Z.to_nat (to - from)) 0
   / ofZ (Z.max 1 (to - from))) / 255.

(** [Math.floor(n * 0.15)] and [Math.floor(n * 0.55)]. *)
Definition b1 (n : Z) : Z := floor (ofZ n * 0.15).
Definition m1 (n : Z) : Z := floor (ofZ n * 0.55).

(** The loop over the time-domain samples. *)
Fixpoint sumSquares (dataTime : list Z) (sum : float) : float :=
  match dataTime with
  | [] => sum
  | x :: rest =>
      let v := (ofZ x - 128) / 128 in sumSquares rest (sum + v * v)
  end.

(** The four instantaneous values of one [update]. *)
Definition nextLevel (dataTime : list Z) : float :=
  let rms :=
    sqrt (sumSquares dataTime 0 / ofZ (Z.of_nat (length dataTime))) in
  min 1 (rms * 2).

Definition nextBass (dataFreq : list Z) : float :=
  avg dataFreq 0 (b1 (Z.of_nat (length dataFreq))).

Definition nextMid (dataFreq : list Z) : float :=
  let n := Z.of_nat (length dataFreq) in avg dataFreq (b1 n) (m1 n).

Definition nextTreble (dataFreq : list Z) : float :=
  let n := Z.of_nat (length dataFreq) in avg dataFreq (m1 n) n.

Definition target (f : Audio.Feature) (dataTime dataFreq : list Z) : float :=
  match f with
  | Audio.Level => nextLevel dataTime
  | Audio.Bass => nextBass dataFreq
  | Audio.Mid => nextMid dataFreq
  | Audio.Treble => nextTreble dataFreq
  end.

(** [update()], given the buffers the analyser fills in. *)
Definition update (dataTime dataFreq : list Z) (a : AudioInput) : AudioInput :=
  if negb (analyser a) then a
  else
    let k := _smooth a in
    {| analyser := analyser a;
       level  := level a  * k + nextLevel dataTime  * (1 - k);
       bass   := bass a   * k + nextBass dataFreq   * (1 - k);
       mid    := mid a    * k + nextMid dataFreq    * (1 - k);
       treble := treble a * k + nextTreble dataFreq * (1 - k);
       _smooth := _smooth a |}.

Definition feature (f : Audio.Feature) (a : AudioInput) : float :=
  match f with
  | Audio.Level => level a | Audio.Bass => bass a
  | Audio.Mid => mid a | Audio.Treble => treble a
  end.

(** [n] calls of [update] on the same buffers. *)
Fixpoint updateN (dataTime dataFreq : list Z) (n : nat) (a : AudioInput)
  : AudioInput :=
  match n with
  | O => a
  | S k => update dataTime dataFreq (updateN dataTime dataFreq k a)
  end.

(** One smoothing assignment, and [n] of them towards the same value. *)
Definition ema (k x c : float) : float := x * k + c * (1 - k).

Fixpoint emaN (n : nat) (k x c : float) : float :=
  match n with
  | O => x
  | S m => ema k (emaN m k x c) c
  end.













(** The lengths a frequency buffer can have: [frequencyBinCount] is half
    of [fftSize], a power of two of at most 32768. *)
Definition binCounts : list Z := map Z.of_nat (seq 0 (Z.to_nat 16385)).

Definition cutCheck (n : Z) : bool :=
  ((b1 n =? Audio.b1 n)%Z && (m1 n =? Audio.m1 n)%Z)%bool.


End Audio64.

(* ================================================================== *)
(** * Properties of the preset scheduler                               *)
(* ================================================================== *)

Module HydraFacts.
Import Hydra.
Local Open Scope Z_scope.

Lemma presetCount_eq : presetCount = 8.
Proof. reflexivity. Qed.

(** On a non-negative dividend the JavaScript remainder is the floored one. *)
Lemma js_rem_nonneg (a : Z) : 0 <= a -> Z.rem a presetCount = a mod presetCount.
Proof. intros Ha. apply Z.rem_mod_nonneg; [exact Ha | reflexivity]. Qed.

Lemma js_rem_range (a : Z) : - presetCount < Z.rem a presetCount < presetCount.
Proof.
  rewrite presetCount_eq.
  destruct (Z.le_gt_cases 0 a) as [Ha|Ha].
  - pose proof (Z.rem_bound_pos a 8 Ha ltac:(lia)). lia.
  - pose proof (Z.rem_bound_pos_neg a 8 ltac:(lia) ltac:(lia)). lia.
Qed.

Lemma lookup_in_range (i : Z) :
  0 <= i < presetCount -> lookup i = Some (Pass (Z.to_nat i)).
Proof.
  rewrite presetCount_eq. intros Hi. unfold lookup.
  destruct (Z.ltb_spec i 0) as [?|_]; [lia|].
  assert (Hc : i = 0 \/ i = 1 \/ i = 2 \/ i = 3 \/ i = 4 \/ i = 5 \/ i = 6 \/ i = 7)
    by lia.
  repeat (destruct Hc as [->|Hc]; [reflexivity|]). subst i. reflexivity.
Qed.

Lemma lookup_negative (i : Z) : i < 0 -> lookup i = None.
Proof. intros Hi. unfold lookup. destruct (Z.ltb_spec i 0); [reflexivity|lia]. Qed.

(** What [runPreset] does to each component of the world. *)
Lemma runPreset_idx f i w :
  idx (fst (runPreset f i w)) = Z.rem (i + presetCount) presetCount.
Proof. unfold runPreset. simpl. destruct (lookup _); reflexivity. Qed.

Lemma runPreset_timers f i w :
  presetTimer (fst (runPreset f i w)) = presetTimer w
  /\ intervals (fst (runPreset f i w)) = intervals w
  /\ nextHandle (fst (runPreset f i w)) = nextHandle w
  /\ reported (fst (runPreset f i w)) = reported w.
Proof. unfold runPreset. simpl. destruct (lookup _); simpl; auto. Qed.

(** For [i >= -presetCount] the index is normalised, the target is cleared
    and then the selected preset is invoked. *)
Lemma runPreset_in_range f i w :
  - presetCount <= i ->
  runPreset f i w =
    (emit (Pass (Z.to_nat (i mod presetCount)))
       (emit Solid (set_idx (i mod presetCount) w)),
     if f then Throw PresetFault else Normal).
Proof.
  intros Hi. unfold runPreset.
  assert (Hr : Z.rem (i + presetCount) presetCount = i mod presetCount).
  { rewrite js_rem_nonneg by lia.
    rewrite <- (Z.mul_1_l presetCount) at 1.
    apply Z.mod_add. rewrite presetCount_eq. lia. }
  rewrite Hr. cbn [idx emit set_idx].
  rewrite lookup_in_range; [reflexivity|].
  apply Z.mod_pos_bound. reflexivity.
Qed.

Lemma callback_spec f w :
  - presetCount < idx w ->
  callback f w =
    (if f then report PresetFault else fun x => x)
      (emit (Pass (Z.to_nat ((idx w + 1) mod presetCount)))
         (emit Solid (set_idx ((idx w + 1) mod presetCount) w))).
Proof.
  intros Hi. unfold callback.
  rewrite runPreset_in_range by lia. destruct f; reflexivity.
Qed.

Lemma callback_idx f w :
  - presetCount < idx w -> idx (callback f w) = (idx w + 1) mod presetCount.
Proof. intros Hi. rewrite callback_spec by exact Hi. destruct f; reflexivity. Qed.

Lemma callback_timers f w :
  presetTimer (callback f w) = presetTimer w
  /\ intervals (callback f w) = intervals w
  /\ nextHandle (callback f w) = nextHandle w.
Proof.
  unfold callback. pose proof (runPreset_timers f (idx w + 1) w) as H.
  destruct (runPreset f (idx w + 1) w) as [w' [|e]]; simpl in *; tauto.
Qed.

Lemma callback_idx_range f w :
  - presetCount < idx w -> 0 <= idx (callback f w) < presetCount.
Proof.
  intros Hi. rewrite callback_idx by exact Hi.
  apply Z.mod_pos_bound. reflexivity.
Qed.


Lemma tick_rotating f w : rotating w -> tick f w = callback f w.
Proof.
  intros [_ (h & Hp & Ha)]. unfold tick, fire. rewrite Hp, Ha. reflexivity.
Qed.

Lemma rotating_callback f w : rotating w -> rotating (callback f w).
Proof.
  intros [Hi (h & Hp & Ha)].
  destruct (callback_timers f w) as (Ep & Ei & _).
  split.
  - pose proof (callback_idx_range f w Hi). rewrite presetCount_eq in *. lia.
  - exists h. split; [congruence|]. unfold active in *. rewrite Ei. exact Ha.
Qed.

Lemma ticks_rotating faults : forall w,
  rotating w ->
  ticks faults w = callbacks faults w /\ rotating (ticks faults w).
Proof.
  induction faults as [|f fs IH]; intros w Hw; simpl.
  - split; [reflexivity|exact Hw].
  - rewrite (tick_rotating f w Hw). apply IH. apply rotating_callback, Hw.
Qed.

Lemma callbacks_idx faults : forall w,
  - presetCount < idx w ->
  idx (callbacks faults w)
  = (idx w + Z.of_nat (length faults)) mod presetCount
    \/ (faults = [] /\ callbacks faults w = w).
Proof.
  induction faults as [|f fs IH]; intros w Hi.
  - right. split; reflexivity.
  - left. cbn [callbacks].
    pose proof (callback_idx_range f w Hi) as Hr.
    destruct (IH (callback f w)) as [E|[-> E]].
    + rewrite presetCount_eq in *. lia.
    + rewrite E, callback_idx by exact Hi.
      rewrite Zplus_mod_idemp_l. f_equal. cbn [length]. lia.
    + cbn [callbacks]. rewrite callback_idx by exact Hi. reflexivity.
Qed.

Lemma callbacks_idx_from0 faults w :
  idx w = 0 ->
  idx (callbacks faults w) = Z.of_nat (length faults) mod presetCount.
Proof.
  intros H0. destruct (callbacks_idx faults w) as [E|[-> E]].
  - rewrite H0, presetCount_eq. lia.
  - rewrite E, H0. reflexivity.
  - rewrite E. exact H0.
Qed.

(** After a start whose first pass returns, the timer is running at index 0. *)
Lemma start_normal_rotating ms w :
  let w1 := fst (startScheduler false ms w) in
  idx w1 = 0 /\ rotating w1.
Proof.
  cbv zeta. unfold startScheduler, start_run.
  rewrite runPreset_in_range by (rewrite presetCount_eq; lia).
  cbn [fst]. unfold start_set, start_clear, setInterval. cbn.
  destruct (presetTimer w); cbn;
    (split; [reflexivity|]; split; [reflexivity|];
     eexists; split; [reflexivity|]; unfold active; cbn;
     rewrite Pos.eqb_refl; reflexivity).
Qed.

Lemma start_idx f ms w : idx (fst (startScheduler f ms w)) = 0.
Proof.
  unfold startScheduler, start_run.
  rewrite runPreset_in_range by (rewrite presetCount_eq; lia).
  destruct f; [reflexivity|].
  unfold start_set, start_clear. cbn. destruct (presetTimer w); reflexivity.
Qed.

(** ** The invariant of the controller *)

Lemma Inv_init : Inv init.
Proof.
  split; [rewrite presetCount_eq; cbn; lia | discriminate | left; reflexivity].
Qed.

Lemma Inv_runPreset f i w : Inv w -> Inv (fst (runPreset f i w)).
Proof.
  intros [Hi Hh Hs].
  destruct (runPreset_timers f i w) as (Ep & Ei & En & _).
  split.
  - rewrite runPreset_idx. apply js_rem_range.
  - rewrite Ep, En. exact Hh.
  - unfold single_timer. rewrite Ep, Ei. exact Hs.
Qed.

Lemma Inv_callback f w : Inv w -> Inv (callback f w).
Proof.
  intros [Hi Hh Hs].
  destruct (callback_timers f w) as (Ep & Ei & En).
  split.
  - pose proof (callback_idx_range f w (proj1 Hi)). rewrite presetCount_eq in *. lia.
  - rewrite Ep, En. exact Hh.
  - unfold single_timer. rewrite Ep, Ei. exact Hs.
Qed.

Lemma Inv_fire f h w : Inv w -> Inv (fire f h w).
Proof.
  intros Hw. unfold fire. destruct (active h w); [apply Inv_callback|]; exact Hw.
Qed.

Lemma start_clear_intervals w : Inv w -> intervals (start_clear w) = [].
Proof.
  intros [_ _ [E|(h & ms & Ep & E)]]; unfold start_clear.
  - destruct (presetTimer w); cbn; rewrite E; reflexivity.
  - rewrite Ep. cbn. rewrite E. cbn. rewrite Pos.eqb_refl. reflexivity.
Qed.

Lemma start_clear_rest w :
  idx (start_clear w) = idx w /\ presetTimer (start_clear w) = presetTimer w
  /\ nextHandle (start_clear w) = nextHandle w
  /\ target (start_clear w) = target w.
Proof.
  unfold start_clear. destruct (presetTimer w) eqn:E; cbn; rewrite ?E; auto.
Qed.

(** The statements of a start that gets past its first pass. *)
Lemma start_set_clear ms w :
  Inv w ->
  let w' := start_set ms (start_clear w) in
  idx w' = idx w /\ target w' = target w
  /\ presetTimer w' = Some (nextHandle w)
  /\ intervals w' = [mkInterval (nextHandle w) ms]
  /\ nextHandle w' = Pos.succ (nextHandle w).
Proof.
  intros Hw. cbv zeta. unfold start_set, setInterval. cbn.
  rewrite (start_clear_intervals w Hw).
  destruct (start_clear_rest w) as (-> & _ & -> & ->). auto.
Qed.

Lemma Inv_start_set_clear ms w : Inv w -> Inv (start_set ms (start_clear w)).
Proof.
  intros Hw. destruct (start_set_clear ms w Hw) as (Ei & _ & Ep & Eiv & En).
  split.
  - rewrite Ei. apply (inv_idx w Hw).
  - intros h. rewrite Ep, En. intros [= <-]. lia.
  - right. eauto.
Qed.

Lemma Inv_start f ms w : Inv w -> Inv (fst (startScheduler f ms w)).
Proof.
  intros Hw. unfold startScheduler, start_run.
  pose proof (Inv_runPreset f 0 w Hw) as H1.
  destruct (runPreset f 0 w) as [w1 [|e]]; cbn [fst] in *.
  - apply Inv_start_set_clear, H1.
  - exact H1.
Qed.

Lemma Inv_step e w : Inv w -> Inv (step e w).
Proof.
  destruct e; cbn [step]; [apply Inv_start | apply Inv_runPreset | apply Inv_fire].
Qed.

Lemma Inv_exec es : forall w, Inv w -> Inv (exec es w).
Proof.
  induction es as [|e es IH]; intros w Hw; cbn [exec]; [exact Hw|].
  apply IH, Inv_step, Hw.
Qed.

Lemma Inv_at_most_one w : Inv w -> (length (intervals w) <= 1)%nat.
Proof.
  intros [_ _ [E|(h & ms & _ & E)]]; rewrite E; cbn; lia.
Qed.

Lemma points_at_most_one e w :
  Inv w -> Forall (fun p => (length (intervals p) <= 1)%nat) (points e w).
Proof.
  intros Hw. destruct e as [f ms|f i|f h]; cbn [points].
  - unfold start_points, start_run.
    pose proof (Inv_runPreset f 0 w Hw) as H1.
    destruct (runPreset f 0 w) as [w1 [|e]]; cbn [fst] in H1.
    + apply Forall_cons; [apply Inv_at_most_one, H1|].
      apply Forall_cons; [rewrite (start_clear_intervals w1 H1); cbn; lia|].
      apply Forall_cons; [|apply Forall_nil].
      apply Inv_at_most_one, Inv_start_set_clear, H1.
    + apply Forall_cons; [apply Inv_at_most_one, H1|apply Forall_nil].
  - apply Forall_cons; [|apply Forall_nil].
    apply Inv_at_most_one, (Inv_step (EvRun f i)), Hw.
  - apply Forall_cons; [|apply Forall_nil].
    apply Inv_at_most_one, (Inv_step (EvFire f h)), Hw.
Qed.

Lemma history_at_most_one es : forall w,
  Inv w -> Forall (fun p => (length (intervals p) <= 1)%nat) (history es w).
Proof.
  induction es as [|e es IH]; intros w Hw; cbn [history]; [constructor|].
  apply Forall_app. split; [apply points_at_most_one, Hw|].
  apply IH, Inv_step, Hw.
Qed.

(** ** Rotation order *)

(** C1. After a call of [startScheduler], [k] scheduled ticks of the
    rotation timer leave the index at [k mod presetCount], whatever the
    index was before the call and whether or not passes fail on the way;
    every further tick moves the index to its successor in the cyclic
    order [0, 1, ..., presetCount - 1, 0, ...].  The same holds for [k]
    runs of the timer callback after a start whose first pass failed. *)
Theorem rotation_index_after_ticks :
  forall (w : World) (ms : Z) (faults : list bool),
    let w1 := fst (startScheduler false ms w) in
    getPresetIndex w1 = 0
    /\ getPresetIndex (ticks faults w1)
       = Z.of_nat (length faults) mod presetCount
    /\ (forall f : bool,
          getPresetIndex (tick f (ticks faults w1))
          = (getPresetIndex (ticks faults w1) + 1) mod presetCount)
    /\ (forall f0 : bool,
          getPresetIndex (callbacks faults (fst (startScheduler f0 ms w)))
          = Z.of_nat (length faults) mod presetCount).
Proof.
  intros w ms faults w1. unfold getPresetIndex.
  destruct (start_normal_rotating ms w) as [H0 Hrot]. fold w1 in H0, Hrot.
  destruct (ticks_rotating faults w1 Hrot) as [Et Hrot'].
  split; [exact H0|]. split; [|split].
  - rewrite Et. apply callbacks_idx_from0, H0.
  - intros f. rewrite (tick_rotating f _ Hrot').
    apply callback_idx, Hrot'.
  - intros f0. apply callbacks_idx_from0, start_idx.
Qed.

(** ** Failure of one pass *)

Lemma advance_spec f w :
  - presetCount < idx w ->
  advance f w =
    (emit (Pass (Z.to_nat ((idx w + 1) mod presetCount)))
       (emit Solid (set_idx ((idx w + 1) mod presetCount) w)),
     if f then Throw PresetFault else Normal).
Proof. intros Hi. unfold advance. apply runPreset_in_range. lia. Qed.

Lemma advances_spec faults : forall w,
  - presetCount < idx w ->
  - presetCount < idx (advances faults w)
  /\ idx (advances faults w) mod presetCount
     = (idx w + Z.of_nat (length faults)) mod presetCount
  /\ (faults <> [] -> 0 <= idx (advances faults w) < presetCount)
  /\ presetTimer (advances faults w) = presetTimer w
  /\ intervals (advances faults w) = intervals w
  /\ reported (advances faults w) = reported w.
Proof.
  induction faults as [|f fs IH]; intros w Hi; cbn [advances].
  - cbn [length Z.of_nat]. rewrite Z.add_0_r.
    split; [exact Hi|]. split; [reflexivity|]. split; [congruence|auto].
  - rewrite advance_spec by exact Hi. cbn [fst].
    set (w1 := emit _ _).
    assert (H1 : 0 <= idx w1 < presetCount).
    { subst w1. cbn [idx emit set_idx]. apply Z.mod_pos_bound. reflexivity. }
    destruct (IH w1) as (Hr & Hm & Hn & Hp & Hv & Hl).
    { rewrite presetCount_eq in *. lia. }
    split; [exact Hr|]. split; [|split; [|split; [|split]]].
    + rewrite Hm. subst w1. cbn [idx emit set_idx].
      rewrite Zplus_mod_idemp_l. f_equal. cbn [length]. lia.
    + intros _. destruct fs as [|f' fs'].
      * cbn [advances]. exact H1.
      * apply Hn. discriminate.
    + rewrite Hp. reflexivity.
    + rewrite Hv. reflexivity.
    + rewrite Hl. reflexivity.
Qed.

(** The claim as the specification has it does not hold of the code: the
    callback of a running rotation timer whose preset raises ends with
    that exception. *)
Lemma failure_recovered_locally_fails : ~ failure_recovered_locally.
Proof.
  intros H. specialize (H [EvStart false 22000]). discriminate H.
Qed.

(** C5. The scheduler has no handler: in any world the controller can
    reach, a pass of the timer callback whose preset raises ends with that
    exception, after the index has advanced and the target has been
    cleared and handed the preset.  The controller neither cancels nor
    re-creates the timer and reports nothing: [presetTimer], the
    registered intervals and the reported exceptions are as before.
    Every later pass of the callback, failing or not, advances the index
    by one in the cyclic order and leaves the timer as it was. *)
Theorem failing_pass_escapes_with_timer_untouched :
  forall (es : list Event) (later : list bool),
    let w := exec es init in
    let w1 := fst (advance true w) in
    snd (advance true w) = Throw PresetFault
    /\ idx w1 = (idx w + 1) mod presetCount
    /\ target w1 = Pass (Z.to_nat (idx w1)) :: Solid :: target w
    /\ presetTimer w1 = presetTimer w
    /\ intervals w1 = intervals w
    /\ reported w1 = reported w
    /\ idx (advances later w1)
       = (idx w + 1 + Z.of_nat (length later)) mod presetCount
    /\ presetTimer (advances later w1) = presetTimer w
    /\ intervals (advances later w1) = intervals w
    /\ reported (advances later w1) = reported w.
Proof.
  intros es later w w1.
  assert (Hinv : Inv w) by (apply Inv_exec, Inv_init).
  pose proof (inv_idx w Hinv) as Hi.
  assert (E : advance true w
              = (emit (Pass (Z.to_nat ((idx w + 1) mod presetCount)))
                   (emit Solid (set_idx ((idx w + 1) mod presetCount) w)),
                 Throw PresetFault)).
  { apply (advance_spec true). lia. }
  subst w1. rewrite E. cbn [fst snd idx target presetTimer intervals reported
                              emit set_idx].
  set (w1 := emit _ _).
  assert (H1 : 0 <= idx w1 < presetCount).
  { subst w1. cbn [idx emit set_idx]. apply Z.mod_pos_bound. reflexivity. }
  destruct (advances_spec later w1) as (_ & Hm & Hn & Hp & Hv & Hl).
  { rewrite presetCount_eq in *. lia. }
  repeat split; try reflexivity.
  - destruct later as [|f fs].
    + cbn [advances length Z.of_nat]. subst w1. cbn [idx emit set_idx].
      rewrite Z.add_0_r. reflexivity.
    + rewrite <- (Z.mod_small (idx (advances (f :: fs) w1)) presetCount)
        by (apply Hn; discriminate).
      rewrite Hm. subst w1. cbn [idx emit set_idx].
      rewrite Zplus_mod_idemp_l. reflexivity.
  - rewrite Hp. reflexivity.
  - rewrite Hv. reflexivity.
  - rewrite Hl. reflexivity.
Qed.

(** ** Normalisation of the index *)

(** Below [-presetCount] the sum [i + presets.length] stays negative, and so
    does its remainder unless it is zero: no preset is selected. *)
Lemma runPreset_below_range f i w :
  i < - presetCount -> (i mod presetCount <> 0) ->
  idx (fst (runPreset f i w)) = i mod presetCount - presetCount
  /\ snd (runPreset f i w) = Throw TypeError
  /\ target (fst (runPreset f i w)) = Solid :: target w.
Proof.
  rewrite presetCount_eq. intros Hi Hm.
  assert (Hr : Z.rem (i + presetCount) presetCount = i mod 8 - 8).
  { rewrite presetCount_eq.
    pose proof (Z.rem_bound_pos_neg (i + 8) 8 ltac:(lia) ltac:(lia)) as Hb.
    pose proof (Z.quot_rem' (i + 8) 8) as Hq.
    pose proof (Z.mod_pos_bound i 8 ltac:(lia)) as Hmb.
    pose proof (Z.div_mod i 8 ltac:(lia)) as Hd.
    assert (Hz : Z.rem (i + 8) 8 <> 0).
    { intros E. apply Hm. rewrite E in Hq.
      replace i with (0 + (Z.quot (i + 8) 8 - 1) * 8) by lia.
      rewrite Z.mod_add by lia. reflexivity. }
    lia. }
  unfold runPreset. rewrite Hr. cbn [idx emit set_idx].
  pose proof (Z.mod_pos_bound i 8 ltac:(lia)) as Hmb.
  rewrite lookup_negative by lia. cbn. auto.
Qed.

(** C6, at [i = -9].  [runPreset(-9)] leaves the index at [-1], not at the
    floored remainder [7]: after the clearing pass [presets[-1]] is
    [undefined] and the call ends with a [TypeError], no preset having been
    invoked. *)
Theorem runPreset_minus9_not_normalized :
  forall (f : bool) (w : World),
    runPreset f (-9) w = (emit Solid (set_idx (-1) w), Throw TypeError)
    /\ getPresetIndex (fst (runPreset f (-9) w)) = -1
    /\ (-9) mod presetCount = 7
    /\ target (fst (runPreset f (-9) w)) = Solid :: target w.
Proof. intros f w. repeat split. Qed.

(** ** Restarting the scheduler *)


(** When the first pass of a restart raises, the call ends there: the old
    timer of period 22000 is still the registered one, and none of period
    500 exists. *)
Lemma failing_restart_keeps_old_timer :
  let w := exec [EvStart false 22000] init in
  let w' := fst (startScheduler true 500 w) in
  presetTimer w = Some 1%positive
  /\ active 1%positive w' = true
  /\ intervals w' = [mkInterval 1%positive 22000]
  /\ snd (startScheduler true 500 w) = Throw PresetFault.
Proof. repeat split. Qed.

Lemma every_start_replaces_timer_fails : ~ every_start_replaces_timer.
Proof.
  intros H. destruct (H [EvStart false 22000] true 500) as (Hc & _ & _).
  specialize (Hc 1%positive eq_refl). discriminate Hc.
Qed.

(** C7, amended.  In any world the controller can reach, a call of
    [startScheduler] whose first pass returns has cleared the target and
    run preset 0, has cancelled the timer that was running and has left one
    new timer, of period [ms], as the only registered one; a second call
    does the same again.  Whatever the events and whichever passes fail, no
    world passed through, between the statements of [startScheduler]
    included, has more than one interval registered. *)
Theorem startScheduler_replaces_timer :
  forall (es : list Event) (ms ms2 : Z),
    let w := exec es init in
    let w' := fst (startScheduler false ms w) in
    let w'' := fst (startScheduler false ms2 w') in
    snd (startScheduler false ms w) = Normal
    /\ idx w' = 0
    /\ target w' = Pass 0 :: Solid :: target w
    /\ presetTimer w' = Some (nextHandle w)
    /\ intervals w' = [mkInterval (nextHandle w) ms]
    /\ (forall h, presetTimer w = Some h -> active h w' = false)
    /\ idx w'' = 0
    /\ intervals w'' = [mkInterval (nextHandle w') ms2]
    /\ active (nextHandle w) w'' = false
    /\ Forall (fun p => (length (intervals p) <= 1)%nat) (history es init).
Proof.
  intros es ms ms2 w w' w''.
  assert (Hinv : Inv w) by (apply Inv_exec, Inv_init).
  assert (Hstart : forall m x, Inv x ->
            startScheduler false m x
            = (start_set m (start_clear (emit (Pass 0) (emit Solid (set_idx 0 x)))),
               Normal)).
  { intros m x _. unfold startScheduler, start_run.
    rewrite runPreset_in_range by (rewrite presetCount_eq; lia). reflexivity. }
  assert (Hshape : forall m x, Inv x ->
            let y := fst (startScheduler false m x) in
            idx y = 0 /\ target y = Pass 0 :: Solid :: target x
            /\ presetTimer y = Some (nextHandle x)
            /\ intervals y = [mkInterval (nextHandle x) m]
            /\ (forall h, presetTimer x = Some h -> active h y = false)).
  { intros m x Hx. cbv zeta. rewrite (Hstart m x Hx). cbn [fst].
    assert (H1 : Inv (emit (Pass 0) (emit Solid (set_idx 0 x)))).
    { pose proof (Inv_runPreset false 0 x Hx) as H.
      unfold runPreset in H. cbn in H. exact H. }
    destruct (start_set_clear m _ H1) as (Ei & Et & Ep & Eiv & _).
    cbn [idx target nextHandle emit set_idx] in Ei, Et, Ep, Eiv.
    repeat split; try assumption.
    intros h Hh. unfold active. rewrite Eiv. cbn.
    pose proof (inv_handle x Hx h Hh) as Hlt.
    destruct (Pos.eqb_spec (nextHandle x) h); [lia|reflexivity]. }
  destruct (Hshape ms w Hinv) as (A1 & A2 & A3 & A4 & A5).
  assert (Hinv' : Inv w') by (apply Inv_start, Hinv).
  destruct (Hshape ms2 w' Hinv') as (B1 & _ & _ & B4 & B5).
  fold w' in A1, A2, A3, A4, A5. fold w'' in B1, B4, B5.
  split; [rewrite (Hstart ms w Hinv); reflexivity|].
  repeat (split; [assumption|]).
  split; [apply B5, A3|].
  apply history_at_most_one, Inv_init.
Qed.

(** A restart with period 500 after a start with period 22000 and a tick
    whose pass failed: timer 1 is gone, timer 2 is the only one. *)
Lemma startScheduler_replaces_timer_witness :
  let w := exec [EvStart false 22000; EvFire true 1%positive] init in
  let w' := fst (startScheduler false 500 w) in
  presetTimer w = Some 1%positive
  /\ active 1%positive w' = false
  /\ intervals w' = [mkInterval 2%positive 500].
Proof.
  intros w w'.
  destruct (startScheduler_replaces_timer
              [EvStart false 22000; EvFire true 1%positive] 500 500)
    as (_ & _ & _ & _ & Hi & Hc & _).
  split; [reflexivity|]. split; [apply Hc; reflexivity|exact Hi].
Defined.

End HydraFacts.

(* ================================================================== *)
(** * Properties of the audio features                                 *)
(* ================================================================== *)

Module AudioFacts.
Import Audio.
Local Open Scope Q_scope.

(** ** Banding *)

Lemma div_nonzero (a b : Q) : ~ b == 0 -> div a b = Some (a / b).
Proof.
  intros Hb. unfold div. destruct (Qeq_bool b 0) eqn:E; [|reflexivity].
  apply Qeq_bool_eq in E. contradiction.
Qed.

Lemma divisor_pos (from to : Z) : (1 <= Z.max 1 (to - from))%Z.
Proof. lia. Qed.

Lemma skipn_nth_error (data : list Z) : forall (i : nat) (x : Z),
  nth_error data i = Some x -> skipn i data = x :: skipn (S i) data.
Proof.
  induction data as [|y l IH]; intros i x Hi.
  - destruct i; discriminate.
  - destruct i as [|i]; cbn in Hi; [injection Hi as ->; reflexivity|].
    cbn [skipn]. apply IH, Hi.
Qed.

(** Inside the buffer the loop adds up the bins it runs over. *)
Lemma sumLoop_bins (data : list Z) : forall (count : nat) (i s : Z),
  (0 <= i)%Z -> (i + Z.of_nat count <= Z.of_nat (length data))%Z ->
  sumLoop data i count (Some s)
  = Some (s + total (firstn count (skipn (Z.to_nat i) data)))%Z.
Proof.
  induction count as [|k IH]; intros i s Hi Hn; cbn [sumLoop].
  - cbn. f_equal. lia.
  - unfold readBin. destruct (Z.ltb_spec i 0) as [?|_]; [lia|].
    destruct (nth_error data (Z.to_nat i)) as [x|] eqn:Ex.
    + rewrite IH by lia.
      replace (Z.to_nat (i + 1)) with (S (Z.to_nat i)) by lia.
      rewrite (skipn_nth_error data (Z.to_nat i) x Ex).
      cbn [firstn total fold_right]. unfold total. f_equal. lia.
    + apply nth_error_None in Ex. lia.
Qed.

Lemma avg_bins (data : list Z) (from to : Z) :
  (0 <= from)%Z -> (to <= Z.of_nat (length data))%Z ->
  avg data from to
  = Some (inject_Z (total (bins data from to))
          / inject_Z (Z.max 1 (to - from)) / 255).
Proof.
  intros Hf Ht. unfold avg.
  assert (Es : sumLoop data from (Z.to_nat (to - from)) (Some 0%Z)
               = Some (total (bins data from to))).
  { unfold bins. destruct (Z.le_gt_cases to from) as [Hle|Hgt].
    - replace (Z.to_nat (to - from)) with 0%nat by lia. reflexivity.
    - rewrite sumLoop_bins by lia. reflexivity. }
  rewrite Es. rewrite div_nonzero.
  - apply div_nonzero. discriminate.
  - pose proof (divisor_pos from to) as Hd.
    intros E. unfold Qeq in E. cbn in E. lia.
Qed.

(** Past the end of the buffer the loop reads [undefined]: the sum, and
    with it the average, is NaN. *)
Lemma sumLoop_none (data : list Z) : forall (count : nat) (i : Z),
  sumLoop data i count None = None.
Proof. induction count as [|k IH]; intros i; cbn [sumLoop]; [reflexivity|apply IH]. Qed.

Lemma band_limits (n : Z) :
  (0 <= n)%Z -> (0 <= b1 n)%Z /\ (b1 n <= m1 n)%Z /\ (m1 n <= n)%Z.
Proof.
  intros Hn.
  change (b1 n) with (n * 15 / 100)%Z. change (m1 n) with (n * 55 / 100)%Z.
  repeat split.
  - apply Z.div_pos; lia.
  - apply Z.div_le_mono; lia.
  - apply Z.div_le_upper_bound; lia.
Qed.

Lemma bins_skipn (data : list Z) (from to : Z) :
  (0 <= from <= to)%Z ->
  bins data from to ++ skipn (Z.to_nat to) data = skipn (Z.to_nat from) data.
Proof.
  intros H. unfold bins.
  replace (Z.to_nat to) with (Z.to_nat (to - from) + Z.to_nat from)%nat by lia.
  rewrite <- skipn_skipn. apply firstn_skipn.
Qed.

Lemma bins_to_end (data : list Z) (from : Z) :
  (0 <= from)%Z ->
  bins data from (Z.of_nat (length data)) = skipn (Z.to_nat from) data.
Proof.
  intros H. unfold bins. apply firstn_all2. rewrite length_skipn. lia.
Qed.

Lemma total_bytes (l : list Z) :
  Forall isByte l -> (0 <= total l <= 255 * Z.of_nat (length l))%Z.
Proof.
  induction 1 as [|x l Hx _ IH]; cbn [total fold_right length].
  - lia.
  - unfold isByte in Hx. unfold total in IH. lia.
Qed.

Lemma bins_length (data : list Z) (from to : Z) :
  (Z.of_nat (length (bins data from to)) <= Z.max 1 (to - from))%Z.
Proof.
  unfold bins. rewrite length_firstn. lia.
Qed.

Lemma Forall_bins (P : Z -> Prop) (data : list Z) (from to : Z) :
  Forall P data -> Forall P (bins data from to).
Proof.
  intros H. unfold bins.
  assert (Hs : Forall P (skipn (Z.to_nat from) data)).
  { rewrite <- (firstn_skipn (Z.to_nat from) data) in H.
    apply Forall_app in H. apply H. }
  rewrite <- (firstn_skipn (Z.to_nat (to - from)) (skipn (Z.to_nat from) data))
    in Hs.
  apply Forall_app in Hs. apply Hs.
Qed.

Lemma normalized_unit (s d : Z) :
  (1 <= d)%Z -> (0 <= s <= 255 * d)%Z ->
  0 <= inject_Z s / inject_Z d / 255 /\ inject_Z s / inject_Z d / 255 <= 1.
Proof.
  intros Hd Hs.
  assert (Hdq : 0 < inject_Z d) by (unfold Qlt; cbn; lia).
  assert (Hs0 : 0 <= inject_Z s) by (unfold Qle; cbn; lia).
  assert (Hs1 : inject_Z s <= 255 * inject_Z d).
  { change (inject_Z s <= inject_Z 255 * inject_Z d).
    rewrite <- inject_Z_mult, <- Zle_Qle. lia. }
  split.
  - apply Qle_shift_div_l; [reflexivity|].
    apply Qle_shift_div_l; [exact Hdq|]. lra.
  - apply Qle_shift_div_r; [reflexivity|].
    apply Qle_shift_div_r; [exact Hdq|]. lra.
Qed.

Lemma avg_unit (data : list Z) (from to : Z) (q : Q) :
  (0 <= from)%Z -> (to <= Z.of_nat (length data))%Z -> Forall isByte data ->
  avg data from to = Some q -> 0 <= q /\ q <= 1.
Proof.
  intros Hf Hn Hb. rewrite avg_bins by assumption. intros [= <-].
  apply normalized_unit; [apply divisor_pos|].
  pose proof (total_bytes _ (Forall_bins _ data from to Hb)) as Ht.
  pose proof (bins_length data from to). lia.
Qed.

Lemma cut_points (n : Z) :
  (100 * b1 n <= 15 * n < 100 * (b1 n + 1))%Z
  /\ (100 * m1 n <= 55 * n < 100 * (m1 n + 1))%Z.
Proof.
  change (b1 n) with (n * 15 / 100)%Z. change (m1 n) with (n * 55 / 100)%Z.
  pose proof (Z.div_mod (n * 15) 100 ltac:(lia)) as D1.
  pose proof (Z.mod_pos_bound (n * 15) 100 ltac:(lia)) as M1.
  pose proof (Z.div_mod (n * 55) 100 ltac:(lia)) as D2.
  pose proof (Z.mod_pos_bound (n * 55) 100 ltac:(lia)) as M2.
  lia.
Qed.

(** For every length a frequency buffer of an analyser can have, the
    floors of the binary64 products [n * 0.15] and [n * 0.55] are those of
    the exact products. *)
Lemma cutCheck_binCounts : forallb Audio64.cutCheck Audio64.binCounts = true.
Proof. vm_compute. reflexivity. Qed.

Lemma cut_points_binary64 (n : Z) :
  (0 <= n <= 16384)%Z -> Audio64.b1 n = b1 n /\ Audio64.m1 n = m1 n.
Proof.
  intros Hn.
  assert (Hin : In n Audio64.binCounts).
  { unfold Audio64.binCounts. apply in_map_iff. exists (Z.to_nat n).
    split; [lia|]. apply in_seq. lia. }
  pose proof (proj1 (forallb_forall _ _) cutCheck_binCounts n Hin) as H.
  unfold Audio64.cutCheck in H. apply andb_true_iff in H.
  destruct H as [H1 H2]. split; apply Z.eqb_eq; assumption.
Qed.

(** C8. For a frequency buffer of any length [n], the band limits are
    [b0 = 0], [b1 = floor(0.15 n)], [m1 = floor(0.55 n)] and [t1 = n], the
    floors being those the code computes in binary64 for every length an
    analyser's buffer can have (at most 16384 bins); they
    are ordered, so the bands [b0, b1), [b1, m1) and [m1, t1) are
    contiguous, disjoint and together make up the whole buffer.  The divisor
    of an average is at least 1 for every range, so over every range inside
    the buffer, an empty one included, the average is a finite number: the
    sum of the bins of the range over that divisor, over 255.  Each of the
    three band averages is of that form and lies in [0, 1] when the bins are
    bytes. *)
Theorem band_averages_never_divide_by_zero :
  forall (dataFreq : list Z),
    let n := Z.of_nat (length dataFreq) in
    (b0 = 0 /\ t1 n = n)%Z
    /\ (100 * b1 n <= 15 * n < 100 * (b1 n + 1))%Z
    /\ (100 * m1 n <= 55 * n < 100 * (m1 n + 1))%Z
    /\ ((n <= 16384)%Z -> Audio64.b1 n = b1 n /\ Audio64.m1 n = m1 n)
    /\ (0 <= b1 n /\ b1 n <= m1 n /\ m1 n <= t1 n)%Z
    /\ bins dataFreq b0 (b1 n) ++ bins dataFreq (b1 n) (m1 n)
       ++ bins dataFreq (m1 n) (t1 n) = dataFreq
    /\ (forall from to : Z, (1 <= Z.max 1 (to - from))%Z)
    /\ (forall from to : Z,
          (0 <= from)%Z -> (to <= n)%Z ->
          avg dataFreq from to
          = Some (inject_Z (total (bins dataFreq from to))
                  / inject_Z (Z.max 1 (to - from)) / 255))
    /\ avg dataFreq b0 (b1 n)
       = Some (inject_Z (total (bins dataFreq b0 (b1 n)))
               / inject_Z (Z.max 1 (b1 n - b0)) / 255)
    /\ avg dataFreq (b1 n) (m1 n)
       = Some (inject_Z (total (bins dataFreq (b1 n) (m1 n)))
               / inject_Z (Z.max 1 (m1 n - b1 n)) / 255)
    /\ avg dataFreq (m1 n) (t1 n)
       = Some (inject_Z (total (bins dataFreq (m1 n) (t1 n)))
               / inject_Z (Z.max 1 (t1 n - m1 n)) / 255)
    /\ (Forall isByte dataFreq ->
        forall (from to : Z) (q : Q),
          In (from, to) [(b0, b1 n); (b1 n, m1 n); (m1 n, t1 n)] ->
          avg dataFreq from to = Some q -> 0 <= q /\ q <= 1).
Proof.
  intros dataFreq n.
  destruct (band_limits n ltac:(subst n; lia)) as (H1 & H2 & H3).
  destruct (cut_points n) as [C1 C2].
  unfold b0, t1.
  split; [split; reflexivity|].
  split; [exact C1|]. split; [exact C2|].
  split; [intros Hn; apply cut_points_binary64; subst n; lia|].
  split; [repeat split; assumption|].
  split.
  { subst n. rewrite bins_to_end by lia.
    rewrite bins_skipn by lia. rewrite bins_skipn by lia. reflexivity. }
  split; [intros from to; apply divisor_pos|].
  split; [intros from to Hf Ht; apply avg_bins; assumption|].
  split; [apply avg_bins; lia|].
  split; [apply avg_bins; lia|].
  split; [apply avg_bins; lia|].
  intros Hb from to q Hin Hq.
  apply (avg_unit dataFreq from to q); try assumption.
  - destruct Hin as [E|[E|[E|[]]]]; injection E as E1 _; rewrite <- E1; lia.
  - destruct Hin as [E|[E|[E|[]]]]; injection E as _ E2; rewrite <- E2;
      fold n; lia.
Qed.

(** A one-bin buffer: the bass and mid bands are empty and average to 0,
    the treble band holds the only bin. *)
Lemma band_averages_never_divide_by_zero_witness :
  Forall isByte [255%Z]
  /\ (Audio64.b1 1 = 0 /\ Audio64.m1 1 = 0)%Z
  /\ avg [255%Z] 0 0 = Some (0 / 1 / 255)
  /\ avg [255%Z] 0 1 = Some (255 / 1 / 255)
  /\ (forall q, avg [255%Z] 0 1 = Some q -> 0 <= q /\ q <= 1).
Proof.
  assert (Hb : Forall isByte [255%Z]).
  { constructor; [unfold isByte; lia|constructor]. }
  destruct (band_averages_never_divide_by_zero [255%Z])
    as (_ & _ & _ & Hcut & _ & _ & _ & Hin & Hbass & _ & _ & Hunit).
  split; [exact Hb|]. split; [apply Hcut; cbn; lia|]. split; [exact Hbass|].
  split; [apply (Hin 0%Z 1%Z); cbn; lia|].
  intros q Hq. apply (Hunit Hb 0%Z 1%Z q); [|exact Hq].
  right. right. left. reflexivity.
Defined.

(** ** Smoothing *)

Lemma feature_smooth (f : Feature) (a : AudioInput) (r : Raw) :
  feature f (smooth a r)
  = feature f a * _smooth a + target f r * (1 - _smooth a).
Proof. destruct f; reflexivity. Qed.

End AudioFacts.

(* ================================================================== *)
(** * Properties of the verse overlay                                  *)
(* ================================================================== *)

Module OverlayFacts.
Import Overlay.
Local Open Scope Q_scope.

(** ** Boolean tests on rationals *)

Lemma Qle_bool_false (a b : Q) : Qle_bool a b = false -> b < a.
Proof.
  intros E. apply Qnot_le_lt. intros H.
  apply Qle_bool_iff in H. congruence.
Qed.

Lemma nonzero_true (x : Q) : nonzero x = true <-> ~ x == 0.
Proof.
  unfold nonzero. destruct (Qeq_bool x 0) eqn:E; cbn.
  - apply Qeq_bool_eq in E. split; [discriminate|contradiction].
  - apply Qeq_bool_neq in E. split; auto.
Qed.

Lemma nonzero_false (x : Q) : nonzero x = false <-> x == 0.
Proof.
  unfold nonzero. destruct (Qeq_bool x 0) eqn:E; cbn.
  - apply Qeq_bool_eq in E. split; auto.
  - apply Qeq_bool_neq in E. split; [discriminate|contradiction].
Qed.

(** ** The alpha envelope *)

Lemma clamp01_cases (t : Q) :
  (t <= 0 /\ clamp01 t == 0)
  \/ (0 <= t /\ t <= 1 /\ clamp01 t == t)
  \/ (1 <= t /\ clamp01 t == 1).
Proof.
  unfold clamp01.
  destruct (Q.min_spec 1 t) as [[H1 E1]|[H1 E1]];
    destruct (Q.max_spec 0 (Qmin 1 t)) as [[H2 E2]|[H2 E2]];
    first [ left; split; lra
          | right; left; repeat split; lra
          | right; right; split; lra ].
Qed.

Lemma quotient_times (x m : Q) : 0 < m -> x / m * m == x.
Proof. intros Hm. field. lra. Qed.

Lemma quotient_sign (x m : Q) :
  0 < m -> (x <= 0 -> x / m <= 0) /\ (0 <= x -> 0 <= x / m)
           /\ (x <= m -> x / m <= 1) /\ (m <= x -> 1 <= x / m).
Proof.
  intros Hm. pose proof (quotient_times x m Hm) as E.
  repeat split; intros H; nra.
Qed.

(** Once the fade start is latched, the envelope is one formula for all
    times. *)
Lemma alphaEnvelope_latched (cfg : VerseConfig) (st : State) (now : Q) :
  0 < fadeMs cfg -> ~ fadeStartMs st == 0 ->
  alphaEnvelope cfg now st
  == 1 - clamp01 ((now - fadeStartMs st) / fadeMs cfg).
Proof.
  intros Hm HF. unfold alphaEnvelope.
  apply nonzero_true in HF. rewrite HF. cbn [andb].
  destruct (Qle_bool (fadeStartMs st) now) eqn:E; [reflexivity|].
  apply Qle_bool_false in E.
  destruct (quotient_sign (now - fadeStartMs st) (fadeMs cfg) Hm) as (Hs & _).
  destruct (clamp01_cases ((now - fadeStartMs st) / fadeMs cfg))
    as [[_ Ec]|[(H0 & _ & Ec)|[H1 Ec]]]; rewrite Ec; lra.
Qed.

Lemma alphaEnvelope_cleared (cfg : VerseConfig) (st : State) (now : Q) :
  fadeStartMs st == 0 -> alphaEnvelope cfg now st = 1.
Proof.
  intros HF. unfold alphaEnvelope.
  apply nonzero_false in HF. rewrite HF. reflexivity.
Qed.

Lemma clamp01_lipschitz (s t : Q) : Qabs (clamp01 s - clamp01 t) <= Qabs (s - t).
Proof.
  pose proof (Qle_Qabs (s - t)) as Hp.
  pose proof (Qle_Qabs (- (s - t))) as Hn. rewrite Qabs_opp in Hn.
  apply Qabs_Qle_condition.
  destruct (clamp01_cases s) as [[Hs Es]|[(Hs & Hs' & Es)|[Hs Es]]];
    destruct (clamp01_cases t) as [[Ht Et]|[(Ht & Ht' & Et)|[Ht Et]]];
    split; lra.
Qed.

Lemma alphaEnvelope_continuous (cfg : VerseConfig) (st : State) :
  0 < fadeMs cfg ->
  forall now eps, 0 < eps ->
    exists delta, 0 < delta /\
      forall now', Qabs (now' - now) < delta ->
        Qabs (alphaEnvelope cfg now' st - alphaEnvelope cfg now st) < eps.
Proof.
  intros Hm now eps He.
  exists (eps * fadeMs cfg). split; [nra|].
  intros now' Hd.
  destruct (Qeq_dec (fadeStartMs st) 0) as [HF|HF].
  - rewrite !(alphaEnvelope_cleared cfg st _ HF).
    setoid_replace (1 - 1) with 0 by ring. exact He.
  - rewrite !(alphaEnvelope_latched cfg st _ Hm HF).
    set (F := fadeStartMs st) in *. set (m := fadeMs cfg) in *.
    setoid_replace (1 - clamp01 ((now' - F) / m) - (1 - clamp01 ((now - F) / m)))
      with (- (clamp01 ((now' - F) / m) - clamp01 ((now - F) / m))) by ring.
    rewrite Qabs_opp.
    eapply Qle_lt_trans; [apply clamp01_lipschitz|].
    setoid_replace ((now' - F) / m - (now - F) / m)
      with ((now' - now) / m) by (field; lra).
    assert (Ea : Qabs ((now' - now) / m) * m == Qabs (now' - now)).
    { unfold Qdiv. rewrite Qabs_Qmult.
      rewrite (Qabs_pos (/ m)) by (apply Qlt_le_weak, Qinv_lt_0_compat; exact Hm).
      field. lra. }
    pose proof (Qabs_nonneg ((now' - now) / m)). nra.
Qed.

(** The opacity a frame is drawn with. *)
Lemma draw_unfold cfg pal textWidth maxW tk st v :
  current st = Some v ->
  let total := Z.of_nat (length (buildFullText v)) in
  let st1 := reveal cfg total (tickNow tk) st in
  draw cfg pal textWidth maxW tk st
  = Some (cycle pal (tickRandom tk) (tickNow tk) st1,
          {| alpha := alphaEnvelope cfg (tickNow tk) st1;
             lines := wrapLines textWidth
                        (slice0 (buildFullText v)
                           (Z.min total (charsVisible cfg (tickNow tk) st)))
                        maxW |}).
Proof. intros Hc. unfold draw. rewrite Hc. reflexivity. Qed.

(** C2. With a positive fade duration, and [F] the fade start held by the
    state a frame is drawn from: the opacity is 1 while the timestamps are
    cleared and at every time before [F]; once [F] is latched it is
    [1 - clamp01((now - F) / fadeMs)] from [F] on, which is the affine
    function [1 - (now - F) / fadeMs] on [[F, F + fadeMs]] and 0 from
    [F + fadeMs] on; and it is a continuous function of [now].  The frame
    drawn at [now] has this opacity, the state being the one left by the
    reveal step of that frame. *)
Theorem alpha_envelope_shape :
  forall (cfg : VerseConfig) (st : State),
    0 < fadeMs cfg ->
    let F := fadeStartMs st in
    (F == 0 -> forall now, alphaEnvelope cfg now st = 1)
    /\ (forall now, now < F -> alphaEnvelope cfg now st = 1)
    /\ (~ F == 0 -> forall now, F <= now ->
          alphaEnvelope cfg now st = 1 - clamp01 ((now - F) / fadeMs cfg))
    /\ (~ F == 0 -> forall now, F <= now -> now <= F + fadeMs cfg ->
          alphaEnvelope cfg now st == 1 - (now - F) / fadeMs cfg)
    /\ (~ F == 0 -> forall now, F + fadeMs cfg <= now ->
          alphaEnvelope cfg now st == 0)
    /\ (forall now eps, 0 < eps ->
          exists delta, 0 < delta /\
            forall now', Qabs (now' - now) < delta ->
              Qabs (alphaEnvelope cfg now' st - alphaEnvelope cfg now st) < eps)
    /\ (forall pal textWidth maxW tk v st0,
          current st0 = Some v ->
          reveal cfg (Z.of_nat (length (buildFullText v))) (tickNow tk) st0 = st ->
          exists st' fr,
            draw cfg pal textWidth maxW tk st0 = Some (st', fr)
            /\ alpha fr = alphaEnvelope cfg (tickNow tk) st).
Proof.
  intros cfg st Hm F. subst F.
  split; [intros HF now; apply alphaEnvelope_cleared, HF|].
  split.
  { intros now Hlt. unfold alphaEnvelope.
    destruct (Qle_bool (fadeStartMs st) now) eqn:E.
    - apply Qle_bool_iff in E. lra.
    - rewrite andb_false_r. reflexivity. }
  split.
  { intros HF now Hle. unfold alphaEnvelope.
    apply nonzero_true in HF. apply Qle_bool_iff in Hle.
    rewrite HF, Hle. reflexivity. }
  split.
  { intros HF now Hle Hle'. rewrite (alphaEnvelope_latched cfg st now Hm HF).
    destruct (quotient_sign (now - fadeStartMs st) (fadeMs cfg) Hm)
      as (_ & H0 & H1 & _).
    destruct (clamp01_cases ((now - fadeStartMs st) / fadeMs cfg))
      as [[Hc Ec]|[(Hc & Hc' & Ec)|[Hc Ec]]]; rewrite Ec; lra. }
  split.
  { intros HF now Hle. rewrite (alphaEnvelope_latched cfg st now Hm HF).
    destruct (quotient_sign (now - fadeStartMs st) (fadeMs cfg) Hm)
      as (_ & _ & _ & H1).
    destruct (clamp01_cases ((now - fadeStartMs st) / fadeMs cfg))
      as [[Hc Ec]|[(Hc & Hc' & Ec)|[Hc Ec]]]; rewrite Ec; lra. }
  split; [apply alphaEnvelope_continuous, Hm|].
  intros pal textWidth maxW tk v st0 Hv Hst.
  rewrite (draw_unfold cfg pal textWidth maxW tk st0 v Hv). cbv zeta.
  rewrite Hst. eexists _, _. split; reflexivity.
Qed.


Lemma alpha_envelope_shape_witness :
  0 < fadeMs CONFIG_verse
  /\ alphaEnvelope CONFIG_verse 5000 latched_example = 1
  /\ alphaEnvelope CONFIG_verse 11656 latched_example
     == 1 - (11656 - 11156) / 1000
  /\ alphaEnvelope CONFIG_verse 12500 latched_example == 0.
Proof.
  assert (Hm : 0 < fadeMs CONFIG_verse) by reflexivity.
  destruct (alpha_envelope_shape CONFIG_verse latched_example Hm)
    as (_ & Hbefore & _ & Hlin & Hzero & _ & _).
  split; [exact Hm|].
  split; [apply Hbefore; reflexivity|].
  split.
  - apply Hlin; [discriminate | discriminate | discriminate].
  - apply Hzero; [discriminate | discriminate].
Defined.

(** ** The verse cycle *)


Lemma verseCount_eq : verseCount = 8%Z.
Proof. reflexivity. Qed.

Lemma index_verses (i : Z) :
  (0 <= i < verseCount)%Z -> exists v, index verses i = Some v.
Proof.
  rewrite verseCount_eq. intros Hi. unfold index.
  destruct (Z.ltb_spec i 0) as [?|_]; [lia|].
  destruct (nth_error verses (Z.to_nat i)) as [v|] eqn:E; [eauto|].
  apply nth_error_None in E. cbn in E. lia.
Qed.


Lemma selected_current st : selected st -> exists v, current st = Some v.
Proof. intros [Hi Hc]. rewrite Hc. apply index_verses, Hi. Qed.

Lemma next_index (i : Z) :
  (0 <= i)%Z ->
  Z.rem (i + 1) (Z.of_nat (length verses)) = ((i + 1) mod verseCount)%Z.
Proof. intros Hi. apply Z.rem_mod_nonneg; [lia|reflexivity]. Qed.

Lemma selected_create pal r : selected (create pal r).
Proof. split; [rewrite verseCount_eq; cbn; lia|reflexivity]. Qed.

Lemma selected_setup now st : selected st -> selected (setup now st).
Proof. intros H. exact H. Qed.

Lemma selected_reveal cfg total now st :
  selected st -> selected (reveal cfg total now st).
Proof. intros H. unfold reveal. destruct (_ && _)%bool; exact H. Qed.

Lemma selected_nextVerse pal r now st :
  selected st -> selected (nextVerse pal r now st).
Proof.
  intros [Hi _]. unfold selected, nextVerse. cbn [verseIndex current].
  rewrite next_index by lia. split; [|reflexivity].
  apply Z.mod_pos_bound. reflexivity.
Qed.

Lemma selected_cycle pal r now st : selected st -> selected (cycle pal r now st).
Proof.
  intros H. unfold cycle.
  destruct (_ && _)%bool; [apply selected_nextVerse|]; exact H.
Qed.

Lemma selected_draw cfg pal textWidth maxW tk st :
  selected st ->
  exists st' fr, draw cfg pal textWidth maxW tk st = Some (st', fr)
                 /\ selected st'.
Proof.
  intros Hs. destruct (selected_current st Hs) as [v Hv].
  rewrite (draw_unfold cfg pal textWidth maxW tk st v Hv).
  eexists _, _. split; [reflexivity|].
  apply selected_cycle, selected_reveal, Hs.
Qed.






Lemma pickPalette_in (pal : list Color) (r : Q) :
  pal <> [] -> 0 <= r -> r < 1 ->
  exists c, pickPalette pal r = Some c /\ In c pal.
Proof.
  intros Hne H0 H1. unfold pickPalette, index.
  set (n := Z.of_nat (length pal)).
  assert (Hn : (0 < n)%Z) by (subst n; destruct pal; [contradiction|cbn; lia]).
  assert (Hnq : 0 < inject_Z n) by (unfold Qlt; cbn; lia).
  assert (Hlo : (0 <= Qfloor (r * inject_Z n))%Z).
  { change 0%Z with (Qfloor 0). apply Qfloor_resp_le. nra. }
  assert (Hhi : (Qfloor (r * inject_Z n) < n)%Z).
  { rewrite Zlt_Qlt. eapply Qle_lt_trans; [apply Qfloor_le|]. nra. }
  destruct (Z.ltb_spec (Qfloor (r * inject_Z n)) 0) as [?|_]; [lia|].
  destruct (nth_error pal (Z.to_nat (Qfloor (r * inject_Z n)))) as [c|] eqn:E.
  - exists c. split; [reflexivity|]. eapply nth_error_In, E.
  - apply nth_error_None in E. subst n. lia.
Qed.



(** Only the three derived timestamps are touched by the reveal step. *)
Lemma reveal_frame cfg total now st :
  verseIndex (reveal cfg total now st) = verseIndex st
  /\ current (reveal cfg total now st) = current st
  /\ accent (reveal cfg total now st) = accent st
  /\ startMs (reveal cfg total now st) = startMs st.
Proof. unfold reveal. destruct (_ && _)%bool; cbn; auto. Qed.

(** Reaching the full length takes time: the latch never happens at the
    start of the clock. *)
Lemma reveal_time_positive cfg total now st :
  0 < msPerChar cfg -> 0 <= startMs st -> (1 <= total)%Z ->
  (total <= charsVisible cfg now st)%Z -> 0 < now.
Proof.
  intros Hm Hs Ht Hc. unfold charsVisible in Hc.
  pose proof (Qfloor_le ((now - startMs st) / msPerChar cfg)) as Hf.
  assert (H1 : 1 <= inject_Z (Qfloor ((now - startMs st) / msPerChar cfg))).
  { change 1 with (inject_Z 1). rewrite <- Zle_Qle. lia. }
  pose proof (quotient_times (now - startMs st) (msPerChar cfg) Hm) as E.
  nra.
Qed.

Lemma buildFullText_length v : (1 <= Z.of_nat (length (buildFullText v)))%Z.
Proof. unfold buildFullText. cbn [app length]. lia. Qed.







(** ** Line wrapping *)

Lemma pieces_cons (s : jsstring) : exists p ps, pieces s = p :: ps.
Proof.
  destruct s as [|c r]; cbn; [eauto|].
  destruct (isWhiteSpace c); [eauto|]. destruct (pieces r); eauto.
Qed.

Lemma splitSpaces_cons (b : bool) (s : jsstring) :
  exists p ps, splitSpaces b s = p :: ps.
Proof.
  revert b. induction s as [|c r IH]; intros b; cbn; [eauto|].
  destruct (isWhiteSpace c).
  - destruct b; [apply IH|eauto].
  - destruct (splitSpaces false r); eauto.
Qed.

Lemma pieces_app_space (a b : jsstring) (c : N) :
  isWhiteSpace c = true -> pieces (a ++ c :: b) = pieces a ++ pieces b.
Proof.
  intros Hc. induction a as [|x a IH]; cbn [app pieces].
  - rewrite Hc. reflexivity.
  - destruct (isWhiteSpace x); rewrite IH; [reflexivity|].
    destruct (pieces_cons a) as (p & ps & ->). reflexivity.
Qed.

Lemma wordsOf_app_space (a b : jsstring) (c : N) :
  isWhiteSpace c = true -> wordsOf (a ++ c :: b) = wordsOf a ++ wordsOf b.
Proof.
  intros Hc. unfold wordsOf. rewrite (pieces_app_space a b c Hc).
  apply filter_app.
Qed.

Lemma wordsOf_nil : wordsOf [] = [].
Proof. reflexivity. Qed.

(** Collapsing runs of white space changes the empty pieces only. *)
Lemma splitSpaces_pieces (s : jsstring) :
  (exists p ps qs, splitSpaces false s = p :: ps /\ pieces s = p :: qs
                   /\ filter truthy ps = filter truthy qs)
  /\ filter truthy (splitSpaces true s) = wordsOf s.
Proof.
  unfold wordsOf. induction s as [|c r [(p & ps & qs & E1 & E2 & E3) IH2]].
  - cbn. split; [|reflexivity]. exists [], [], []. auto.
  - cbn [splitSpaces pieces]. destruct (isWhiteSpace c).
    + split.
      * exists [], (splitSpaces true r), (pieces r). auto.
      * rewrite IH2. reflexivity.
    + rewrite E1, E2. split.
      * exists (c :: p), ps, qs. auto.
      * cbn. rewrite E3. reflexivity.
Qed.

Lemma splitSpaces_words (s : jsstring) :
  filter truthy (splitSpaces false s) = wordsOf s.
Proof.
  destruct (splitSpaces_pieces s) as [(p & ps & qs & E1 & E2 & E3) _].
  unfold wordsOf. rewrite E1, E2. cbn. rewrite E3. reflexivity.
Qed.

Lemma splitSpaces_noSpace (s : jsstring) : forall b,
  Forall (fun w => noSpace w = true) (splitSpaces b s).
Proof.
  induction s as [|c r IH]; intros b; cbn [splitSpaces].
  - repeat constructor.
  - destruct (isWhiteSpace c) eqn:Ec.
    + destruct b; [apply IH|]. constructor; [reflexivity|apply IH].
    + pose proof (IH false) as H.
      destruct (splitSpaces false r) as [|p ps];
        [repeat constructor; cbn; rewrite Ec; reflexivity|].
      inversion H as [|? ? Hp Hps]; subst.
      constructor; [|exact Hps]. cbn. rewrite Ec. exact Hp.
Qed.

Lemma pieces_noSpace (w : jsstring) : noSpace w = true -> pieces w = [w].
Proof.
  induction w as [|c r IH]; [reflexivity|]. cbn.
  destruct (isWhiteSpace c); cbn; [discriminate|].
  intros H. rewrite (IH H). reflexivity.
Qed.

Lemma wordsOf_noSpace (w : jsstring) :
  noSpace w = true -> wordsOf w = filter truthy [w].
Proof. intros H. unfold wordsOf. rewrite (pieces_noSpace w H). reflexivity. Qed.

Lemma flat_map_wordsOf_noSpace (ws : list jsstring) :
  Forall (fun w => noSpace w = true) ws ->
  flat_map wordsOf ws = filter truthy ws.
Proof.
  induction 1 as [|w ws Hw _ IH]; [reflexivity|].
  cbn [flat_map]. rewrite IH, (wordsOf_noSpace w Hw).
  cbn [filter]. destruct (truthy w); reflexivity.
Qed.

Lemma wordsOf_falsy (l : jsstring) : truthy l = false -> wordsOf l = [].
Proof. destruct l; [reflexivity|discriminate]. Qed.

(** Blank paragraphs. *)
Lemma dropWhile_nil (p : N -> bool) (s : jsstring) :
  dropWhile p s = [] -> forallb p s = true.
Proof.
  induction s as [|c r IH]; [reflexivity|]. cbn.
  destruct (p c); [exact IH|discriminate].
Qed.

Lemma dropWhile_head (p : N -> bool) (s : jsstring) :
  dropWhile p s = [] \/ exists c r, dropWhile p s = c :: r /\ p c = false.
Proof.
  induction s as [|c r IH]; [left; reflexivity|]. cbn.
  destruct (p c) eqn:E; [exact IH|]. right. eauto.
Qed.

Lemma trim_blank (s : jsstring) :
  truthy (trim s) = false -> forallb isWhiteSpace s = true.
Proof.
  unfold trim. intros H.
  destruct (dropWhile_head isWhiteSpace s) as [E|(c & r & E & Hc)].
  - apply dropWhile_nil, E.
  - exfalso. rewrite E in H. cbn [rev] in H.
    destruct (rev (dropWhile isWhiteSpace (rev r ++ [c]))) eqn:Er;
      [|discriminate].
    apply (f_equal (@rev N)) in Er. rewrite rev_involutive in Er. cbn in Er.
    apply dropWhile_nil in Er. rewrite forallb_app in Er.
    cbn in Er. rewrite Hc in Er. rewrite andb_false_r in Er. discriminate.
Qed.

Lemma wordsOf_blank (s : jsstring) :
  forallb isWhiteSpace s = true -> wordsOf s = [].
Proof.
  unfold wordsOf. induction s as [|c r IH]; [reflexivity|]. cbn.
  destruct (isWhiteSpace c); [|discriminate]. exact IH.
Qed.

(** Paragraphs. *)

Lemma split_cons (sep : N) (s : jsstring) : exists p ps, split sep s = p :: ps.
Proof.
  destruct s as [|c r]; cbn; [eauto|].
  destruct (N.eqb c sep); [eauto|]. destruct (split sep r); eauto.
Qed.

Lemma join_split (sep : N) (s : jsstring) : join sep (split sep s) = s.
Proof.
  induction s as [|c r IH]; [reflexivity|]. cbn [split].
  destruct (N.eqb_spec c sep) as [->|Hne].
  - destruct (split_cons sep r) as (p & ps & E). rewrite E in *.
    cbn [join app]. cbn [join] in IH. rewrite IH. reflexivity.
  - destruct (split_cons sep r) as (p & ps & E). rewrite E in *.
    destruct ps as [|q ps]; cbn [join app] in *; rewrite IH; reflexivity.
Qed.

Lemma wordsOf_join (ps : list jsstring) :
  wordsOf (join 10 ps) = flat_map wordsOf ps.
Proof.
  induction ps as [|p [|q ps] IH]; [reflexivity| |].
  - cbn. rewrite app_nil_r. reflexivity.
  - change (join 10 (p :: q :: ps)) with (p ++ 10%N :: join 10 (q :: ps)).
    rewrite wordsOf_app_space by reflexivity. rewrite IH. reflexivity.
Qed.

Section Wrap.
Variables (textWidth : jsstring -> Q) (maxWidth : Q).


(** A line is acceptable when it fits or is one unbroken word. *)
Let ok (l : jsstring) : Prop := textWidth l <= maxWidth \/ noSpace l = true.

Lemma test_words (line w : jsstring) :
  wordsOf (if truthy line then line ++ [32%N] ++ w else w)
  = wordsOf line ++ wordsOf w.
Proof.
  destruct (truthy line) eqn:E.
  - apply wordsOf_app_space. reflexivity.
  - rewrite (wordsOf_falsy line E). reflexivity.
Qed.

Lemma pushed_words (line : jsstring) (lines : list jsstring) :
  flat_map wordsOf (if truthy line then lines ++ [line] else lines)
  = flat_map wordsOf lines ++ wordsOf line.
Proof.
  destruct (truthy line) eqn:E.
  - rewrite flat_map_app. cbn. rewrite app_nil_r. reflexivity.
  - rewrite (wordsOf_falsy line E), app_nil_r. reflexivity.
Qed.

Lemma wordLoop_words (ws : list jsstring) : forall line lines,
  flat_map wordsOf (snd (wordLoop textWidth maxWidth ws line lines)) ++ wordsOf (fst (wordLoop textWidth maxWidth ws line lines))
  = flat_map wordsOf lines ++ wordsOf line ++ flat_map wordsOf ws.
Proof.
  induction ws as [|w rest IH]; intros line lines; cbn [wordLoop].
  - cbn. rewrite app_nil_r. reflexivity.
  - cbv zeta. destruct (Qle_bool _ maxWidth).
    + rewrite IH, test_words. cbn [flat_map]. rewrite <- !app_assoc. reflexivity.
    + rewrite IH, pushed_words. cbn [flat_map]. rewrite <- !app_assoc. reflexivity.
Qed.

Lemma wordLoop_ok (ws : list jsstring) : forall line lines,
  Forall (fun w => noSpace w = true) ws ->
  Forall ok lines -> ok line ->
  Forall ok (snd (wordLoop textWidth maxWidth ws line lines)) /\ ok (fst (wordLoop textWidth maxWidth ws line lines)).
Proof.
  induction ws as [|w rest IH]; intros line lines Hws Hl Hline; cbn [wordLoop].
  - split; assumption.
  - inversion Hws as [|? ? Hw Hrest]; subst. cbv zeta.
    destruct (Qle_bool _ maxWidth) eqn:E.
    + apply IH; [exact Hrest|exact Hl|]. left. apply Qle_bool_iff, E.
    + apply IH; [exact Hrest| |right; exact Hw].
      destruct (truthy line); [|exact Hl].
      apply Forall_app. split; [exact Hl|]. constructor; [exact Hline|constructor].
Qed.

Lemma wordLoop_app (ws : list jsstring) : forall line lines,
  wordLoop textWidth maxWidth ws line lines
  = (fst (wordLoop textWidth maxWidth ws line []), lines ++ snd (wordLoop textWidth maxWidth ws line [])).
Proof.
  induction ws as [|w rest IH]; intros line lines; cbn [wordLoop].
  - cbn. rewrite app_nil_r. reflexivity.
  - cbv zeta. destruct (Qle_bool _ maxWidth).
    + apply IH.
    + rewrite IH.
      rewrite (IH w (if truthy line then [] ++ [line] else [])).
      cbn [fst snd]. f_equal.
      destruct (truthy line); [|reflexivity].
      rewrite <- app_assoc. reflexivity.
Qed.

Lemma wrapParagraph_app (lines : list jsstring) (para : jsstring) :
  wrapParagraph textWidth maxWidth lines para = lines ++ wrapParagraph textWidth maxWidth [] para.
Proof.
  unfold wrapParagraph.
  destruct (truthy (trim para)); [|reflexivity].
  rewrite (wordLoop_app (splitSpaces false para) [] lines).
  destruct (wordLoop textWidth maxWidth (splitSpaces false para) [] []) as [line ls]. cbn [fst snd].
  destruct (truthy line); [|reflexivity].
  rewrite <- app_assoc. reflexivity.
Qed.

Lemma wrapLines_paragraphs (str : jsstring) :
  wrapLines textWidth str maxWidth = flat_map (wrapParagraph textWidth maxWidth []) (split 10 str).
Proof.
  unfold wrapLines.
  assert (H : forall ps acc,
             fold_left (wrapParagraph textWidth maxWidth) ps acc = acc ++ flat_map (wrapParagraph textWidth maxWidth []) ps).
  { induction ps as [|q ps IH]; intros acc; cbn [fold_left flat_map].
    - rewrite app_nil_r. reflexivity.
    - rewrite IH, wrapParagraph_app, <- app_assoc. reflexivity. }
  apply (H (split 10 str) []).
Qed.

Lemma wrapParagraph_blank (para : jsstring) :
  truthy (trim para) = false -> wrapParagraph textWidth maxWidth [] para = [[]].
Proof. intros H. unfold wrapParagraph. rewrite H. reflexivity. Qed.

Lemma wrapParagraph_words (para : jsstring) :
  flat_map wordsOf (wrapParagraph textWidth maxWidth [] para) = wordsOf para.
Proof.
  unfold wrapParagraph.
  destruct (truthy (trim para)) eqn:Eb.
  - pose proof (wordLoop_words (splitSpaces false para) [] []) as H.
      destruct (wordLoop textWidth maxWidth (splitSpaces false para) [] []) as [line ls].
    cbn [fst snd] in H. cbn [flat_map app] in H. rewrite wordsOf_nil in H.
    cbn [app] in H.
    rewrite (flat_map_wordsOf_noSpace _ (splitSpaces_noSpace para false)) in H.
    rewrite splitSpaces_words in H.
    rewrite <- H. exact (pushed_words line ls).
  - cbn. rewrite (wordsOf_blank para (trim_blank para Eb)). reflexivity.
Qed.

Lemma wrapParagraph_ok (para : jsstring) : Forall ok (wrapParagraph textWidth maxWidth [] para).
Proof.
  unfold wrapParagraph.
  destruct (truthy (trim para)).
  - destruct (wordLoop_ok (splitSpaces false para) [] []
                (splitSpaces_noSpace para false) (Forall_nil _))
      as [Hls Hline]; [right; reflexivity|].
      destruct (wordLoop textWidth maxWidth (splitSpaces false para) [] []) as [line ls].
    cbn [fst snd] in *.
    destruct (truthy line); [|exact Hls].
    apply Forall_app. split; [exact Hls|]. constructor; [exact Hline|constructor].
  - constructor; [right; reflexivity|constructor].
Qed.

Lemma wrapLines_words (str : jsstring) :
  flat_map wordsOf (wrapLines textWidth str maxWidth) = wordsOf str.
Proof.
  rewrite wrapLines_paragraphs.
  rewrite <- (join_split 10 str) at 2. rewrite wordsOf_join.
  induction (split 10 str) as [|q ps IH]; [reflexivity|].
  cbn [flat_map]. rewrite flat_map_app, wrapParagraph_words, IH. reflexivity.
Qed.

Lemma wrapLines_ok (str : jsstring) (l : jsstring) :
  In l (wrapLines textWidth str maxWidth) ->
  textWidth l <= maxWidth \/ noSpace l = true.
Proof.
  rewrite wrapLines_paragraphs. intros Hin.
  apply in_flat_map in Hin. destruct Hin as (para & _ & Hin).
  pose proof (wrapParagraph_ok para) as H.
  rewrite Forall_forall in H. apply (H l Hin).
Qed.
End Wrap.


(** A word wider than the maximum is put on a line of its own: with one
    unit of width per code unit and a maximum of 1, "ab" is returned as
    it is. *)
Lemma every_line_fits_fails : ~ every_line_fits.
Proof.
  intros H.
  specialize (H (fun s => inject_Z (Z.of_nat (length s))) [97%N; 98%N] 1
                [97%N; 98%N]).
  cbv in H. apply H; [left; reflexivity|reflexivity].
Qed.

(** C10, amended.  For every string, width measure and maximum width: the
    words of the lines, in order, are the words of the string, so the text
    is broken at white space only; every line either is no wider than the
    maximum or is a single word without white space; the lines are those of
    the paragraphs, one after the other, and a paragraph that is empty or
    blank gives exactly one empty line. *)
Theorem wrapLines_breaks_at_spaces :
  forall (textWidth : jsstring -> Q) (str : jsstring) (maxWidth : Q),
    flat_map wordsOf (wrapLines textWidth str maxWidth) = wordsOf str
    /\ (forall l, In l (wrapLines textWidth str maxWidth) ->
          textWidth l <= maxWidth \/ noSpace l = true)
    /\ wrapLines textWidth str maxWidth
       = flat_map (wrapParagraph textWidth maxWidth []) (split 10 str)
    /\ (forall para, truthy (trim para) = false ->
          wrapParagraph textWidth maxWidth [] para = [[]]).
Proof.
  intros textWidth str maxWidth.
  split; [apply wrapLines_words|].
  split; [apply wrapLines_ok|].
  split; [apply wrapLines_paragraphs|].
  apply wrapParagraph_blank.
Qed.

(** "ab cd", an empty paragraph and "e", wrapped at width 3. *)
Lemma wrapLines_breaks_at_spaces_witness :
  let tw := fun s : jsstring => inject_Z (Z.of_nat (length s)) in
  let str := [97; 98; 32; 99; 100; 10; 10; 101]%N in
  wrapLines tw str 3 = [[97; 98]; [99; 100]; []; [101]]%N
  /\ (tw [97; 98]%N <= 3 \/ noSpace [97; 98]%N = true)
  /\ wrapParagraph tw 3 [] [] = [[]].
Proof.
  intros tw str.
  destruct (wrapLines_breaks_at_spaces tw str 3) as (_ & Hok & _ & Hblank).
  split; [reflexivity|].
  split; [apply Hok; left; reflexivity|].
  apply Hblank. reflexivity.
Defined.

End OverlayFacts.

(* ================================================================== *)
(** * Further properties of the preset scheduler                       *)
(* ================================================================== *)

Module HydraTraceFacts.
Import Hydra Colors HydraFacts.
Local Open Scope Z_scope.

Lemma lookup_some (i : Z) (p : RenderOp) :
  lookup i = Some p -> exists k, p = Pass k /\ (k < 8)%nat.
Proof.
  unfold lookup. destruct (i <? 0); [discriminate|].
  intros H. apply nth_error_In in H. cbn in H.
  repeat (destruct H as [<-|H]; [eexists; split; [reflexivity|lia]|]).
  contradiction.
Qed.

Lemma runPreset_target f i w :
  clearedFirst (target w) = true ->
  clearedFirst (target (fst (runPreset f i w))) = true.
Proof.
  intros H. unfold runPreset. cbn [idx emit set_idx].
  destruct (lookup _) as [p|] eqn:E; cbn [fst emit target set_idx].
  - destruct (lookup_some _ _ E) as (k & -> & Hk).
    cbn [clearedFirst]. rewrite H. apply Nat.ltb_lt in Hk. rewrite Hk. reflexivity.
  - exact H.
Qed.

Lemma callback_target f w :
  clearedFirst (target w) = true -> clearedFirst (target (callback f w)) = true.
Proof.
  intros H. unfold callback.
  pose proof (runPreset_target f (idx w + 1) w H) as H1.
  destruct (runPreset f (idx w + 1) w) as [w' [|e]]; exact H1.
Qed.

Lemma start_target f ms w :
  target (fst (startScheduler f ms w)) = target (fst (runPreset f 0 w)).
Proof.
  unfold startScheduler, start_run.
  destruct (runPreset f 0 w) as [w1 [|e]]; cbn [fst]; [|reflexivity].
  unfold start_set, setInterval. cbn [target set_presetTimer].
  apply (start_clear_rest w1).
Qed.

Lemma step_target e w :
  clearedFirst (target w) = true -> clearedFirst (target (step e w)) = true.
Proof.
  intros H. destruct e as [f ms|f i|f h]; cbn [step].
  - rewrite start_target. apply runPreset_target, H.
  - apply runPreset_target, H.
  - unfold fire. destruct (active h w); [apply callback_target|]; exact H.
Qed.

(** X1. Whatever is called and whichever passes fail, the render target
    receives a clearing pass before every preset pass, and only presets of
    the table are run. *)
Theorem target_cleared_before_every_pass :
  forall (es : list Event), clearedFirst (target (exec es init)) = true.
Proof.
  intros es.
  assert (H : forall w, clearedFirst (target w) = true ->
                        clearedFirst (target (exec es w)) = true).
  { induction es as [|e es IH]; intros w Hw; cbn [exec]; [exact Hw|].
    apply IH, step_target, Hw. }
  apply H. reflexivity.
Qed.

Lemma start_reported f ms w :
  reported (fst (startScheduler f ms w)) = reported w.
Proof.
  unfold startScheduler, start_run.
  destruct (runPreset_timers f 0 w) as (_ & _ & _ & Er).
  destruct (runPreset f 0 w) as [w1 [|e]]; cbn [fst] in *; [|exact Er].
  unfold start_set, start_clear, setInterval.
  destruct (presetTimer w1); cbn; exact Er.
Qed.

Lemma step_reported e w :
  Inv w -> Forall (fun x => x = PresetFault) (reported w) ->
  Forall (fun x => x = PresetFault) (reported (step e w)).
Proof.
  intros Hinv H. destruct e as [f ms|f i|f h]; cbn [step].
  - rewrite start_reported. exact H.
  - destruct (runPreset_timers f i w) as (_ & _ & _ & ->). exact H.
  - unfold fire. destruct (active h w); [|exact H].
    rewrite callback_spec by apply (inv_idx w Hinv).
    destruct f; cbn; [constructor; [reflexivity|]|]; exact H.
Qed.

Lemma step_idx_range e w :
  inRange e -> 0 <= idx w < presetCount -> 0 <= idx (step e w) < presetCount.
Proof.
  intros He Hw. destruct e as [f ms|f i|f h]; cbn [step].
  - rewrite start_idx, presetCount_eq. lia.
  - cbn in He. rewrite runPreset_in_range by exact He. cbn.
    apply Z.mod_pos_bound. reflexivity.
  - unfold fire. destruct (active h w); [|exact Hw].
    apply callback_idx_range. rewrite presetCount_eq in *. lia.
Qed.

(** X2. Whatever is called and whichever passes fail: the only exception
    the timer dispatch ever reports is one raised inside a preset, never a
    missing preset; a firing of a registered interval leaves the index
    within [0 .. presetCount - 1], also after a manual run has left it
    negative; and as long as every manual run is given an argument of at
    least [-presetCount], the index is within that range at all times. *)
Theorem rotation_timer_never_misses_a_preset :
  forall (es : list Event),
    let w := exec es init in
    Forall (fun x => x = PresetFault) (reported w)
    /\ - presetCount < idx w < presetCount
    /\ (forall f h, active h w = true ->
          0 <= idx (fire f h w) < presetCount)
    /\ (Forall inRange es -> 0 <= idx w < presetCount).
Proof.
  intros es w. subst w.
  assert (Hinv : Inv (exec es init)) by (apply Inv_exec, Inv_init).
  split.
  { clear Hinv.
    assert (H : forall w0, Inv w0 ->
                  Forall (fun x => x = PresetFault) (reported w0) ->
                  Forall (fun x => x = PresetFault) (reported (exec es w0))).
    { induction es as [|e es IH]; intros w0 Hi Hr; cbn [exec]; [exact Hr|].
      apply IH; [apply Inv_step, Hi|apply step_reported; assumption]. }
    apply H; [apply Inv_init|constructor]. }
  split; [apply (inv_idx _ Hinv)|].
  split.
  { intros f h Ha. unfold fire. rewrite Ha.
    apply callback_idx_range, (inv_idx _ Hinv). }
  intros Hes. clear Hinv.
  assert (H : forall w0, 0 <= idx w0 < presetCount ->
                         0 <= idx (exec es w0) < presetCount).
  { induction Hes as [|e es He _ IH]; intros w0 Hw; cbn [exec]; [exact Hw|].
    apply IH, step_idx_range; assumption. }
  apply H. rewrite presetCount_eq. cbn. lia.
Qed.

(** After a start, a manual [runPreset(-9)] leaves the index at -1; the
    next firing of the timer brings it to 0. *)
Lemma rotation_timer_never_misses_a_preset_witness :
  let w := exec [EvStart false 22000; EvRun false (-9)] init in
  idx w = -1
  /\ active 1%positive w = true
  /\ 0 <= idx (fire false 1%positive w) < presetCount
  /\ 0 <= idx (exec [EvStart false 22000; EvRun true (-8)] init) < presetCount.
Proof.
  intros w.
  destruct (rotation_timer_never_misses_a_preset
              [EvStart false 22000; EvRun false (-9)]) as (_ & _ & Hfire & _).
  destruct (rotation_timer_never_misses_a_preset
              [EvStart false 22000; EvRun true (-8)]) as (_ & _ & _ & Hrange).
  split; [reflexivity|]. split; [reflexivity|].
  split; [apply Hfire; reflexivity|].
  apply Hrange. repeat constructor. cbn. lia.
Defined.

End HydraTraceFacts.

(* ================================================================== *)
(** * Properties of colours and gains                                  *)
(* ================================================================== *)

Module ColorsFacts.
Import Overlay Colors OverlayFacts.
Local Open Scope Q_scope.

(** ** Channels *)

Lemma land_byte (x : Z) : (0 <= Z.land x 255 <= 255)%Z.
Proof.
  assert (E : Z.land x 255 = (x mod 256)%Z).
  { change 255%Z with (Z.ones 8). rewrite Z.land_ones by lia. reflexivity. }
  rewrite E. pose proof (Z.mod_pos_bound x 256 ltac:(lia)). lia.
Qed.

Lemma channel_unit (x : Z) :
  0 <= inject_Z (Z.land x 255) / 255 /\ inject_Z (Z.land x 255) / 255 <= 1.
Proof.
  pose proof (land_byte x) as [H0 H1].
  assert (Q0 : 0 <= inject_Z (Z.land x 255)) by (unfold Qle; cbn; lia).
  assert (Q1 : inject_Z (Z.land x 255) <= 255).
  { change 255 with (inject_Z 255). rewrite <- Zle_Qle. exact H1. }
  split.
  - apply Qle_shift_div_l; [reflexivity|]. lra.
  - apply Qle_shift_div_r; [reflexivity|]. lra.
Qed.

(** X3. Whatever the string, each of the three components computed by
    [hexToRgb01] is a number between 0 and 1. *)
Theorem hexToRgb01_components_in_unit_interval :
  forall (hex : jsstring),
    (0 <= red (hexToRgb01 hex) /\ red (hexToRgb01 hex) <= 1)
    /\ (0 <= green (hexToRgb01 hex) /\ green (hexToRgb01 hex) <= 1)
    /\ (0 <= blue (hexToRgb01 hex) /\ blue (hexToRgb01 hex) <= 1).
Proof.
  intros hex. unfold hexToRgb01. cbn [red green blue].
  repeat split; apply channel_unit.
Qed.

(** ** Reading digits *)

Lemma hexDigit_some (c : N) (d : Z) :
  hexDigit c = Some d ->
  (0 <= d < 16)%Z /\ isWhiteSpace c = false
  /\ N.eqb c 45 = false /\ N.eqb c 43 = false
  /\ N.eqb c 120 = false /\ N.eqb c 88 = false /\ N.eqb c 35 = false.
Proof.
  unfold hexDigit. intros H.
  assert (Hc : ((48 <= c <= 57)%N \/ (97 <= c <= 102)%N \/ (65 <= c <= 70)%N)
               /\ (0 <= d < 16)%Z).
  { destruct (N.leb_spec 48 c), (N.leb_spec c 57); cbn in H;
      try (injection H as <-; split; [left; lia|lia]);
      destruct (N.leb_spec 97 c), (N.leb_spec c 102); cbn in H;
      try (injection H as <-; split; [right; left; lia|lia]);
      destruct (N.leb_spec 65 c), (N.leb_spec c 70); cbn in H;
      try (injection H as <-; split; [right; right; lia|lia]);
      discriminate. }
  destruct Hc as [Hc Hd]. split; [exact Hd|].
  assert (Hne : forall k, (k < 48 \/ 102 < k \/ 57 < k < 65 \/ 70 < k < 97)%N ->
                          N.eqb c k = false).
  { intros k Hk. apply N.eqb_neq. lia. }
  unfold isWhiteSpace.
  rewrite !Hne by lia.
  replace (N.leb 8192 c) with false by (symmetry; apply N.leb_gt; lia).
  repeat split.
Qed.

Lemma dropWhile_keep (s : jsstring) :
  Forall (fun c => isWhiteSpace c = false) s -> dropWhile isWhiteSpace s = s.
Proof. intros H. destruct H as [|c r Hc _]; [reflexivity|]. cbn. rewrite Hc. reflexivity. Qed.

Lemma trim_keep (s : jsstring) :
  Forall (fun c => isWhiteSpace c = false) s -> trim s = s.
Proof.
  intros H. unfold trim. rewrite (dropWhile_keep s H).
  rewrite dropWhile_keep by (apply Forall_rev, H). apply rev_involutive.
Qed.

Lemma digits_noSpace (cs : jsstring) (ds : list Z) :
  Forall2 digit cs ds -> Forall (fun c => isWhiteSpace c = false) cs.
Proof.
  induction 1 as [|c d cs ds Hc _ IH]; constructor; [|exact IH].
  apply (hexDigit_some c d Hc).
Qed.

Lemma digits_noHash (cs : jsstring) (ds : list Z) :
  Forall2 digit cs ds -> removeFirst 35 cs = cs.
Proof.
  induction 1 as [|c d cs ds Hc _ IH]; [reflexivity|]. cbn.
  destruct (hexDigit_some c d Hc) as (_ & _ & _ & _ & _ & _ & ->).
  rewrite IH. reflexivity.
Qed.

Lemma digits_fold (cs : jsstring) (ds : list Z) :
  Forall2 digit cs ds ->
  forall a, digits cs (Some a)
            = Some (fold_left (fun a d => (16 * a + d)%Z) ds a).
Proof.
  induction 1 as [|c d cs ds Hc _ IH]; intros a; [reflexivity|].
  cbn [digits fold_left]. unfold digit in Hc. rewrite Hc. apply IH.
Qed.

Lemma hexValue_bound (ds : list Z) :
  Forall (fun d => (0 <= d < 16)%Z) ds ->
  forall a, (0 <= a)%Z ->
    (0 <= fold_left (fun a d => (16 * a + d)%Z) ds a
     < (a + 1) * 16 ^ Z.of_nat (length ds))%Z.
Proof.
  induction 1 as [|d ds Hd _ IH]; intros a Ha; cbn [fold_left length].
  - cbn. lia.
  - specialize (IH (16 * a + d)%Z ltac:(lia)).
    rewrite Nat2Z.inj_succ, Z.pow_succ_r by lia. nia.
Qed.

(** A non-empty string of at most 13 digits is read exactly. *)
Lemma parseInt16_digits (cs : jsstring) (ds : list Z) :
  Forall2 digit cs ds -> cs <> [] -> (length ds <= 13)%nat ->
  parseInt16 cs = Finite (hexValue ds).
Proof.
  intros H Hne Hlen.
  assert (Hval : (0 <= hexValue ds < 2 ^ 53)%Z).
  { assert (Hd : Forall (fun d => (0 <= d < 16)%Z) ds).
    { clear Hne Hlen. induction H as [|c d cs ds Hc _ IH]; constructor;
        [apply (hexDigit_some c d Hc)|exact IH]. }
    pose proof (hexValue_bound ds Hd 0%Z ltac:(lia)) as Hb. fold (hexValue ds) in Hb.
    assert (16 ^ Z.of_nat (length ds) <= 16 ^ 13)%Z
      by (apply Z.pow_le_mono_r; lia).
    change (16 ^ 13)%Z with (2 ^ 52)%Z in *. change (2 ^ 53)%Z with (2 * 2 ^ 52)%Z.
    lia. }
  unfold parseInt16. rewrite (dropWhile_keep cs (digits_noSpace cs ds H)).
  destruct H as [|c d cs ds Hc Hrest]; [contradiction|].
  destruct (hexDigit_some c d Hc) as (_ & _ & -> & -> & _).
  assert (Hfold := digits_fold cs ds Hrest (16 * 0 + d)%Z).
  unfold digit in Hc.
  destruct Hrest as [|c2 d2 cs ds Hc2 _].
  - cbn [digits] in *. rewrite Hc.
    change (16 * 0 + d)%Z with (hexValue [d]).
    unfold roundDouble.
    destruct (Z.ltb_spec (hexValue [d]) (2 ^ 53)) as [_|Hge]; [reflexivity|lia].
  - destruct (hexDigit_some c2 d2 Hc2) as (_ & _ & _ & _ & -> & -> & _).
    rewrite andb_false_r.
    cbn [digits] in Hfold |- *. rewrite Hc. rewrite Hfold.
    change (fold_left (fun a d0 => (16 * a + d0)%Z) (d2 :: ds) (16 * 0 + d)%Z)
      with (hexValue (d :: d2 :: ds)).
    unfold roundDouble.
    destruct (Z.ltb_spec (hexValue (d :: d2 :: ds)) (2 ^ 53)) as [_|Hge];
      [reflexivity|lia].
Qed.

Lemma bytes_of (hi mid lo : Z) :
  (0 <= hi < 256)%Z -> (0 <= mid < 256)%Z -> (0 <= lo < 256)%Z ->
  let n := toInt32 (Finite (hi * 65536 + mid * 256 + lo)) in
  Z.land (Z.shiftr n 16) 255 = hi
  /\ Z.land (Z.shiftr n 8) 255 = mid
  /\ Z.land n 255 = lo.
Proof.
  intros Hh Hm Hl n.
  assert (En : n = (hi * 65536 + mid * 256 + lo)%Z).
  { subst n. unfold toInt32.
    change (2 ^ 31)%Z with 2147483648%Z. change (2 ^ 32)%Z with 4294967296%Z.
    rewrite Z.mod_small by lia. lia. }
  rewrite En. change 255%Z with (Z.ones 8).
  rewrite !Z.land_ones, !Z.shiftr_div_pow2 by lia.
  change (2 ^ 16)%Z with 65536%Z. change (2 ^ 8)%Z with 256%Z.
  set (v := (hi * 65536 + mid * 256 + lo)%Z).
  assert (E1 : (v / 65536 = hi)%Z).
  { symmetry. apply (Z.div_unique v 65536 hi (mid * 256 + lo)); subst v; lia. }
  assert (E2 : (v / 256 = hi * 256 + mid)%Z).
  { symmetry. apply (Z.div_unique v 256 (hi * 256 + mid) lo); subst v; lia. }
  rewrite E1, E2. repeat split.
  - apply Z.mod_small. lia.
  - symmetry. apply (Z.mod_unique _ _ hi); lia.
  - symmetry. apply (Z.mod_unique _ _ (hi * 256 + mid)); subst v; lia.
Qed.

Lemma hexToRgb01_digits (cs : jsstring) (ds : list Z) (hi mid lo : Z) :
  Forall2 digit cs ds -> cs <> [] -> (length ds <= 13)%nat ->
  hexValue ds = (hi * 65536 + mid * 256 + lo)%Z ->
  (0 <= hi < 256)%Z -> (0 <= mid < 256)%Z -> (0 <= lo < 256)%Z ->
  hexToRgb01 (35%N :: cs)
  = {| red := inject_Z hi / 255; green := inject_Z mid / 255;
       blue := inject_Z lo / 255 |}
  /\ hexToRgb01 cs = hexToRgb01 (35%N :: cs).
Proof.
  intros H Hne Hlen Hv Hh Hm Hl.
  assert (E : forall s, removeFirst 35 s = cs ->
                hexToRgb01 s
                = {| red := inject_Z hi / 255; green := inject_Z mid / 255;
                     blue := inject_Z lo / 255 |}).
  { intros s Es. unfold hexToRgb01. rewrite Es.
    rewrite (trim_keep cs (digits_noSpace cs ds H)).
    rewrite (parseInt16_digits cs ds H Hne Hlen), Hv.
    destruct (bytes_of hi mid lo Hh Hm Hl) as (-> & -> & ->). reflexivity. }
  split.
  - apply E. reflexivity.
  - rewrite (E cs (digits_noHash cs ds H)). symmetry. apply E. reflexivity.
Qed.

(** X4. For six radix-16 digits, in either case, with the leading [#] or
    without it, [hexToRgb01] returns the value of the first pair of digits
    over 255 as red, of the second pair as green and of the third pair as
    blue. *)
Theorem hexToRgb01_six_digits :
  forall (c1 c2 c3 c4 c5 c6 : N) (d1 d2 d3 d4 d5 d6 : Z),
    Forall2 digit [c1; c2; c3; c4; c5; c6] [d1; d2; d3; d4; d5; d6] ->
    hexToRgb01 [35%N; c1; c2; c3; c4; c5; c6]
    = {| red := inject_Z (16 * d1 + d2) / 255;
         green := inject_Z (16 * d3 + d4) / 255;
         blue := inject_Z (16 * d5 + d6) / 255 |}
    /\ hexToRgb01 [c1; c2; c3; c4; c5; c6]
       = hexToRgb01 [35%N; c1; c2; c3; c4; c5; c6].
Proof.
  intros c1 c2 c3 c4 c5 c6 d1 d2 d3 d4 d5 d6 H.
  assert (Hd : Forall (fun d => (0 <= d < 16)%Z) [d1; d2; d3; d4; d5; d6]).
  { clear - H. induction H as [|c d cs ds Hc _ IH]; constructor;
      [apply (hexDigit_some c d Hc)|exact IH]. }
  repeat match goal with
         | Hx : Forall _ (_ :: _) |- _ => inversion Hx; subst; clear Hx
         end.
  apply (hexToRgb01_digits _ _ _ _ _ H);
    unfold hexValue; cbn [fold_left length]; try lia; discriminate.
Qed.

Lemma hexToRgb01_six_digits_witness :
  Forall2 digit [65; 56; 49; 57; 49; 57]%N [10; 8; 1; 9; 1; 9]%Z
  /\ hexToRgb01 [35; 65; 56; 49; 57; 49; 57]%N
     = {| red := inject_Z 168 / 255; green := inject_Z 25 / 255;
          blue := inject_Z 25 / 255 |}.
Proof.
  assert (H : Forall2 digit [65; 56; 49; 57; 49; 57]%N [10; 8; 1; 9; 1; 9]%Z)
    by (repeat constructor).
  split; [exact H|].
  exact (proj1 (hexToRgb01_six_digits _ _ _ _ _ _ _ _ _ _ _ _ H)).
Defined.

(** X5. A three-digit shorthand is not expanded: for [#abc] the red
    component is 0, the green one is the value of the first digit over 255
    and the blue one the value of the last two digits over 255. *)
Theorem hexToRgb01_three_digits :
  forall (c1 c2 c3 : N) (d1 d2 d3 : Z),
    Forall2 digit [c1; c2; c3] [d1; d2; d3] ->
    hexToRgb01 [35%N; c1; c2; c3]
    = {| red := inject_Z 0 / 255;
         green := inject_Z d1 / 255;
         blue := inject_Z (16 * d2 + d3) / 255 |}.
Proof.
  intros c1 c2 c3 d1 d2 d3 H.
  assert (Hd : Forall (fun d => (0 <= d < 16)%Z) [d1; d2; d3]).
  { clear - H. induction H as [|c d cs ds Hc _ IH]; constructor;
      [apply (hexDigit_some c d Hc)|exact IH]. }
  repeat match goal with
         | Hx : Forall _ (_ :: _) |- _ => inversion Hx; subst; clear Hx
         end.
  apply (hexToRgb01_digits _ _ _ _ _ H);
    unfold hexValue; cbn [fold_left length]; try lia; discriminate.
Qed.

Lemma hexToRgb01_three_digits_witness :
  Forall2 digit [70; 56; 48]%N [15; 8; 0]%Z
  /\ hexToRgb01 [35; 70; 56; 48]%N
     = {| red := inject_Z 0 / 255; green := inject_Z 15 / 255;
          blue := inject_Z 128 / 255 |}.
Proof.
  assert (H : Forall2 digit [70; 56; 48]%N [15; 8; 0]%Z) by (repeat constructor).
  split; [exact H|]. exact (hexToRgb01_three_digits _ _ _ _ _ _ H).
Defined.

(** ** Strings without digits *)

Lemma dropWhile_snoc (p : N -> bool) (c : N) (x : jsstring) :
  p c = false -> exists y, dropWhile p (x ++ [c]) = y ++ [c].
Proof.
  intros Hc. induction x as [|a x IH]; cbn.
  - rewrite Hc. exists []. reflexivity.
  - destruct (p a); [exact IH|]. exists (a :: x). reflexivity.
Qed.

Lemma trim_head (s : jsstring) (c : N) (rest : jsstring) :
  trim s = c :: rest -> isWhiteSpace c = false.
Proof.
  unfold trim. intros H.
  destruct (dropWhile_head isWhiteSpace s) as [E|(c0 & r0 & E & Hc0)].
  - rewrite E in H. discriminate.
  - rewrite E in H. cbn [rev] in H.
    destruct (dropWhile_snoc isWhiteSpace c0 (rev r0) Hc0) as [y Ey].
    rewrite Ey, rev_app_distr in H. cbn in H. injection H as <- _. exact Hc0.
Qed.

(** X6. When, the first [#] removed and the string trimmed, nothing is
    left, or what is left starts with a unit that is neither a radix-16
    digit nor a sign, [hexToRgb01] does not fail: it returns black. *)
Theorem hexToRgb01_without_digits_is_black :
  forall (hex : jsstring),
    (trim (removeFirst 35 hex) = []
     \/ exists c rest, trim (removeFirst 35 hex) = c :: rest
                       /\ hexDigit c = None /\ c <> 45%N /\ c <> 43%N) ->
    parseInt16 (trim (removeFirst 35 hex)) = NaN
    /\ red (hexToRgb01 hex) == 0 /\ green (hexToRgb01 hex) == 0
    /\ blue (hexToRgb01 hex) == 0.
Proof.
  intros hex H.
  assert (E : parseInt16 (trim (removeFirst 35 hex)) = NaN).
  { destruct H as [->|(c & rest & Et & Hd & H45 & H43)]; [reflexivity|].
    pose proof (trim_head _ _ _ Et) as Hws. rewrite Et.
    unfold parseInt16. cbn [dropWhile]. rewrite Hws.
    apply N.eqb_neq in H45, H43. rewrite H45, H43.
    assert (H48 : N.eqb c 48 = false).
    { apply N.eqb_neq. intros ->. discriminate Hd. }
    rewrite H48. cbn [andb].
    destruct rest; cbn [digits]; rewrite Hd; reflexivity. }
  split; [exact E|].
  unfold hexToRgb01. rewrite E. cbn. repeat split; reflexivity.
Qed.

(** "##A81919": only the first [#] is removed, so no digit is read. *)
Lemma hexToRgb01_without_digits_is_black_witness :
  red (hexToRgb01 [35; 35; 65; 56; 49; 57; 49; 57]%N) == 0
  /\ red (hexToRgb01 []) == 0.
Proof.
  split.
  - apply (hexToRgb01_without_digits_is_black [35; 35; 65; 56; 49; 57; 49; 57]%N).
    right. exists 35%N, [65; 56; 49; 57; 49; 57]%N.
    repeat split; discriminate.
  - apply (hexToRgb01_without_digits_is_black []). left. reflexivity.
Defined.

(** ** Picking a colour *)

Lemma Qfloor_unique (x : Q) (i : Z) :
  inject_Z i <= x -> x < inject_Z (i + 1) -> Qfloor x = i.
Proof.
  intros Hlo Hhi.
  pose proof (Qfloor_le x) as H1. pose proof (Qlt_floor x) as H2.
  assert (A : (i < Qfloor x + 1)%Z).
  { rewrite Zlt_Qlt. eapply Qle_lt_trans; [exact Hlo|exact H2]. }
  assert (B : (Qfloor x < i + 1)%Z).
  { rewrite Zlt_Qlt. eapply Qle_lt_trans; [exact H1|exact Hhi]. }
  lia.
Qed.

Lemma index_nth {A : Type} (l : list A) (i : nat) :
  index l (Z.of_nat i) = nth_error l i.
Proof.
  unfold index. destruct (Z.ltb_spec (Z.of_nat i) 0); [lia|].
  rewrite Nat2Z.id. reflexivity.
Qed.

(** X7. For a palette whose length is a power of two, as the sixteen
    colours of [CONFIG.palette], so that the product of the random number
    and the length is exact, the overlay's [pickPalette] returns the
    element at position [i] when that product lies in [[i, i + 1)].  With
    any non-empty palette and a random number in [[0, 1)] it returns one of
    the palette's colours, and on an empty palette it returns
    [undefined]. *)
Theorem pickPalette_picks_by_interval :
  forall (pal : list Color) (random : Q),
    (forall k i : nat,
        length pal = (2 ^ k)%nat ->
        inject_Z (Z.of_nat i) <= random * inject_Z (Z.of_nat (length pal)) ->
        random * inject_Z (Z.of_nat (length pal)) < inject_Z (Z.of_nat i + 1) ->
        Overlay.pickPalette pal random = nth_error pal i)
    /\ (pal <> [] -> 0 <= random -> random < 1 ->
        exists c, Overlay.pickPalette pal random = Some c /\ In c pal)
    /\ (pal = [] -> Overlay.pickPalette pal random = None).
Proof.
  intros pal random. split; [|split].
  - intros k i _ Hlo Hhi. unfold Overlay.pickPalette.
    rewrite (Qfloor_unique _ _ Hlo Hhi). apply index_nth.
  - apply pickPalette_in.
  - intros ->. unfold Overlay.pickPalette, index. cbn [length nth_error].
    destruct (_ <? 0)%Z; [reflexivity|]. destruct (Z.to_nat _); reflexivity.
Qed.

(** With the sixteen colours of [CONFIG.palette], 0.5 picks the ninth. *)
Lemma pickPalette_picks_by_interval_witness :
  Overlay.pickPalette palette (1 # 2) = nth_error palette 8
  /\ exists c, Overlay.pickPalette palette (1 # 2) = Some c /\ In c palette.
Proof.
  destruct (pickPalette_picks_by_interval palette (1 # 2)) as (Hi & Hin & _).
  split.
  - apply (Hi 4%nat 8%nat); [reflexivity|discriminate|reflexivity].
  - apply Hin; [discriminate|discriminate|reflexivity].
Defined.

(** X8. The controller's [pickPalette], given a non-empty palette and a
    random number in [[0, 1)], returns one of the palette's colours
    together with the components [hexToRgb01] computes from its [hex]
    field, each between 0 and 1; on an empty palette it raises. *)
Theorem controller_pickPalette_returns_palette_colour :
  forall (pal : list Color) (random : Q),
    (pal <> [] -> 0 <= random -> random < 1 ->
       exists c, Colors.pickPalette pal random
                 = Some (c, hexToRgb01 (u (hex c)))
                 /\ In c pal
                 /\ 0 <= red (hexToRgb01 (u (hex c))) <= 1
                 /\ 0 <= green (hexToRgb01 (u (hex c))) <= 1
                 /\ 0 <= blue (hexToRgb01 (u (hex c))) <= 1)
    /\ (pal = [] -> Colors.pickPalette pal random = None).
Proof.
  intros pal random. split.
  - intros Hne H0 H1.
    destruct (pickPalette_in pal random Hne H0 H1) as (c & Ec & Hin).
    exists c. unfold Colors.pickPalette.
    unfold Overlay.pickPalette in Ec. rewrite Ec.
    destruct (hexToRgb01_components_in_unit_interval (u (hex c)))
      as (Hr & Hg & Hb).
    repeat split; try assumption; tauto.
  - intros ->. unfold Colors.pickPalette, index. cbn [length nth_error].
    destruct (_ <? 0)%Z; [reflexivity|]. destruct (Z.to_nat _); reflexivity.
Qed.

Lemma controller_pickPalette_returns_palette_colour_witness :
  exists c, Colors.pickPalette palette (1 # 2)
            = Some (c, hexToRgb01 (u (hex c))) /\ In c palette.
Proof.
  destruct (controller_pickPalette_returns_palette_colour palette (1 # 2))
    as (H & _).
  destruct H as (c & E & Hin & _); [discriminate|discriminate|reflexivity|].
  exists c. split; assumption.
Defined.

(** ** Gains *)

Lemma clamp01_unit (x : Q) : 0 <= clamp01 x /\ clamp01 x <= 1.
Proof.
  destruct (clamp01_cases x) as [[H E]|[(H & H' & E)|[H E]]]; rewrite E; lra.
Qed.

Lemma clamp01_monotone (x y : Q) : x <= y -> clamp01 x <= clamp01 y.
Proof.
  intros Hxy.
  destruct (clamp01_cases x) as [[Hx Ex]|[(Hx & Hx' & Ex)|[Hx Ex]]];
    destruct (clamp01_cases y) as [[Hy Ey]|[(Hy & Hy' & Ey)|[Hy Ey]]];
    rewrite Ex, Ey; lra.
Qed.

(** X9. [gain(x, k)] is always between 0 and 1, is [x * k] when that
    product is between 0 and 1, is 0 for a product below 0 and 1 for a
    product above 1, and for a non-negative [k] it does not decrease when
    [x] grows. *)
Theorem gain_clamps_the_product :
  forall (x k : Q),
    (0 <= gain x k /\ gain x k <= 1)
    /\ (0 <= x * k -> x * k <= 1 -> gain x k == x * k)
    /\ (x * k <= 0 -> gain x k == 0)
    /\ (1 <= x * k -> gain x k == 1)
    /\ (forall y, 0 <= k -> x <= y -> gain x k <= gain y k).
Proof.
  intros x k. unfold gain.
  split; [apply clamp01_unit|].
  destruct (clamp01_cases (x * k)) as [[H E]|[(H & H' & E)|[H E]]];
    (split; [intros; rewrite E; lra|]);
    (split; [intros; rewrite E; lra|]);
    (split; [intros; rewrite E; lra|]);
    intros y Hk Hxy; apply clamp01_monotone; nra.
Qed.

(** The level gain 3.2 saturates at a level of 0.3125. *)
Lemma gain_clamps_the_product_witness :
  gain (1 # 4) (32 # 10) == (1 # 4) * (32 # 10)
  /\ gain (1 # 2) (32 # 10) == 1
  /\ gain (1 # 4) (32 # 10) <= gain (1 # 2) (32 # 10).
Proof.
  destruct (gain_clamps_the_product (1 # 4) (32 # 10)) as (_ & Hid & _ & _ & Hmono).
  destruct (gain_clamps_the_product (1 # 2) (32 # 10)) as (_ & _ & _ & Hsat & _).
  split; [apply Hid; discriminate|].
  split; [apply Hsat; discriminate|].
  apply Hmono; discriminate.
Defined.

(** X10. Whatever the audio features, the number of horizontal
    repetitions [2 + Math.floor(3 * BA())] is an integer from 2 to 5 and
    the number of kaleidoscope sides [3 + Math.floor(4 * BA())] an integer
    from 3 to 7; both reach their maximum only when the amplified bass is
    saturated. *)
Theorem stepped_parameters_in_range :
  forall (a : Audio.AudioInput),
    (2 <= repeatX a <= 5)%Z
    /\ (3 <= kaleidSides a <= 7)%Z
    /\ (repeatX a = 5%Z <-> BA a == 1)
    /\ (kaleidSides a = 7%Z <-> BA a == 1).
Proof.
  intros a. unfold repeatX, kaleidSides.
  destruct (clamp01_unit (Audio.bass a * 2)) as [H0 H1]. fold (gain (Audio.bass a) 2) in H0, H1.
  fold (BA a) in H0, H1.
  assert (F : forall m : Z, (0 < m)%Z ->
            (0 <= Qfloor (inject_Z m * BA a) <= m)%Z
            /\ (Qfloor (inject_Z m * BA a) = m <-> BA a == 1)).
  { intros m Hm.
    assert (Hmq : 0 < inject_Z m) by (unfold Qlt; cbn; lia).
    pose proof (Qfloor_le (inject_Z m * BA a)) as Hf.
    pose proof (Qlt_floor (inject_Z m * BA a)) as Hg.
    rewrite inject_Z_plus in Hg. change (inject_Z 1) with 1 in Hg.
    assert (A : (0 <= Qfloor (inject_Z m * BA a))%Z).
    { change 0%Z with (Qfloor 0). apply Qfloor_resp_le. nra. }
    assert (B : (Qfloor (inject_Z m * BA a) <= m)%Z).
    { rewrite Zle_Qle. nra. }
    split; [lia|]. split.
    - intros E. rewrite E in Hf. nra.
    - intros E. apply Qfloor_unique.
      + rewrite E. lra.
      + rewrite E, inject_Z_plus. change (inject_Z 1) with 1. lra. }
  destruct (F 3%Z ltac:(lia)) as [R3 E3]. destruct (F 4%Z ltac:(lia)) as [R4 E4].
  change (inject_Z 3) with 3 in *. change (inject_Z 4) with 4 in *.
  split; [lia|]. split; [lia|].
  split; (split; [intros H|intros H]).
  - apply E3. lia.
  - apply E3 in H. lia.
  - apply E4. lia.
  - apply E4 in H. lia.
Qed.

End ColorsFacts.

(* ================================================================== *)
(** * Further properties of the audio features                         *)
(* ================================================================== *)

Module AudioRangeFacts.
Import Audio AudioRanges AudioFacts.
Local Open Scope Q_scope.

(** ** The level *)

Lemma sample_square (x : Z) :
  isByte x ->
  0 <= (inject_Z x - 128) / 128 * ((inject_Z x - 128) / 128)
  /\ (inject_Z x - 128) / 128 * ((inject_Z x - 128) / 128) <= 1.
Proof.
  intros [H0 H1].
  assert (Q0 : 0 <= inject_Z x) by (unfold Qle; cbn; lia).
  assert (Q1 : inject_Z x <= 255).
  { change 255 with (inject_Z 255). rewrite <- Zle_Qle. exact H1. }
  set (v := (inject_Z x - 128) / 128).
  assert (E : v * 128 == inject_Z x - 128) by (subst v; field).
  split; nra.
Qed.

Lemma sumSquares_bounds (dataTime : list Z) :
  Forall isByte dataTime ->
  forall s, s <= sumSquares dataTime s
            /\ sumSquares dataTime s
               <= s + inject_Z (Z.of_nat (length dataTime)).
Proof.
  induction 1 as [|x l Hx _ IH]; intros s.
  - cbn. change (inject_Z 0) with 0. split; lra.
  - cbn [sumSquares length]. cbv zeta.
    destruct (sample_square x Hx) as [A B].
    destruct (IH (s + (inject_Z x - 128) / 128 * ((inject_Z x - 128) / 128)))
      as [C D].
    rewrite Nat2Z.inj_succ. unfold Z.succ. rewrite inject_Z_plus.
    change (inject_Z 1) with 1. split; lra.
Qed.

Lemma length_pos {A : Type} (l : list A) :
  l <> [] -> 0 < inject_Z (Z.of_nat (length l)).
Proof.
  intros H. destruct l; [contradiction|]. unfold Qlt. cbn. lia.
Qed.

Lemma bands_defined (dataFreq : list Z) :
  let n := Z.of_nat (length dataFreq) in
  exists nb nm nt,
    avg dataFreq b0 (b1 n) = Some nb /\ avg dataFreq (b1 n) (m1 n) = Some nm
    /\ avg dataFreq (m1 n) (t1 n) = Some nt.
Proof.
  intros n.
  pose proof (band_limits n ltac:(subst n; lia)) as (H1 & H2 & H3).
  rewrite !avg_bins by (unfold b0, t1; lia).
  eexists _, _, _. repeat split; reflexivity.
Qed.

Lemma raw_defined sqrt (dataTime dataFreq : list Z) :
  dataTime <> [] ->
  exists r, raw sqrt dataTime dataFreq = Some r
            /\ nextLevel r = Qmin 1 (sqrt (meanSquare dataTime) * 2)
            /\ avg dataFreq b0 (b1 (Z.of_nat (length dataFreq)))
               = Some (nextBass r)
            /\ avg dataFreq (b1 (Z.of_nat (length dataFreq)))
                 (m1 (Z.of_nat (length dataFreq))) = Some (nextMid r)
            /\ avg dataFreq (m1 (Z.of_nat (length dataFreq)))
                 (t1 (Z.of_nat (length dataFreq))) = Some (nextTreble r).
Proof.
  intros Hne. unfold raw.
  rewrite div_nonzero by (pose proof (length_pos dataTime Hne); lra).
  destruct (bands_defined dataFreq) as (nb & nm & nt & E1 & E2 & E3).
  cbv zeta in E1, E2, E3. cbv zeta. rewrite E1, E2, E3.
  eexists. split; [reflexivity|]. cbn. auto.
Qed.

(** X11. [update] computes the level from the mean of the squared
    samples.  With an empty time buffer that mean is the quotient 0/0,
    which is not a finite number (the level computed in binary64 is NaN),
    while the three band averages are still finite.  With a non-empty one all four instantaneous values are finite,
    the level being [min(1, 2 * sqrt(mean))].  For byte samples the mean
    lies between 0 and 1, and it is 0 for silence (all samples 128). *)
Theorem level_from_mean_square :
  forall (sqrt : Q -> Q) (dataTime dataFreq : list Z),
    (dataTime = [] ->
     div (sumSquares dataTime 0) (inject_Z (Z.of_nat (length dataTime))) = None
     /\ PrimFloat.is_nan (Audio64.nextLevel dataTime) = true
     /\ exists nb nm nt,
         avg dataFreq b0 (b1 (Z.of_nat (length dataFreq))) = Some nb
         /\ avg dataFreq (b1 (Z.of_nat (length dataFreq)))
              (m1 (Z.of_nat (length dataFreq))) = Some nm
         /\ avg dataFreq (m1 (Z.of_nat (length dataFreq)))
              (t1 (Z.of_nat (length dataFreq))) = Some nt)
    /\ (dataTime <> [] ->
        exists r, raw sqrt dataTime dataFreq = Some r
                  /\ nextLevel r = Qmin 1 (sqrt (meanSquare dataTime) * 2))
    /\ (dataTime <> [] -> Forall isByte dataTime ->
        0 <= meanSquare dataTime /\ meanSquare dataTime <= 1)
    /\ (dataTime <> [] -> Forall (fun x => x = 128%Z) dataTime ->
        meanSquare dataTime == 0).
Proof.
  intros sqrt dataTime dataFreq. split; [|split; [|split]].
  - intros ->. split; [reflexivity|]. split; [reflexivity|].
    apply bands_defined.
  - intros Hne. destruct (raw_defined sqrt dataTime dataFreq Hne) as (r & E & L & _).
    eauto.
  - intros Hne Hb. unfold meanSquare.
    pose proof (length_pos dataTime Hne) as Hl.
    destruct (sumSquares_bounds dataTime Hb 0) as [A B].
    split.
    + apply Qle_shift_div_l; [exact Hl|]. lra.
    + apply Qle_shift_div_r; [exact Hl|]. lra.
  - intros Hne Hs. unfold meanSquare.
    assert (E : forall s, sumSquares dataTime s == s).
    { clear Hne. induction Hs as [|x l -> _ IH]; intros s; [reflexivity|].
      cbn [sumSquares]. cbv zeta. rewrite IH.
      change (inject_Z 128) with 128. field. }
    rewrite E. unfold Qdiv. ring.
Qed.

Lemma level_from_mean_square_witness :
  div (sumSquares [] 0) (inject_Z (Z.of_nat (@length Z []))) = None
  /\ PrimFloat.is_nan (Audio64.nextLevel []) = true
  /\ (0 <= meanSquare [0; 255]%Z /\ meanSquare [0; 255]%Z <= 1)
  /\ meanSquare [128; 128]%Z == 0.
Proof.
  destruct (level_from_mean_square (fun q => q) [] [0%Z]) as (Hnone & _).
  destruct (level_from_mean_square (fun q => q) [0; 255]%Z []) as (_ & _ & Hunit & _).
  destruct (level_from_mean_square (fun q => q) [128; 128]%Z []) as (_ & _ & _ & Hzero).
  split; [apply (proj1 (Hnone eq_refl))|].
  split; [apply (proj1 (proj2 (Hnone eq_refl)))|].
  split.
  - apply Hunit; [discriminate|].
    repeat constructor; unfold isByte; lia.
  - apply Hzero; [discriminate|]. repeat constructor.
Defined.

(** ** The invariant *)

Lemma smooth_unit (a : AudioInput) (r : Raw) :
  0 <= _smooth a -> _smooth a <= 1 ->
  unitFeatures a ->
  (forall f, 0 <= target f r /\ target f r <= 1) ->
  unitFeatures (smooth a r).
Proof.
  intros K0 K1 Ha Hr f. rewrite feature_smooth.
  destruct (Ha f) as [A0 A1]. destruct (Hr f) as [R0 R1]. split; nra.
Qed.

Lemma raw_unit sqrt (dataTime dataFreq : list Z) (r : Raw) :
  (forall q, 0 <= sqrt q) -> Forall isByte dataFreq ->
  raw sqrt dataTime dataFreq = Some r ->
  forall f, 0 <= target f r /\ target f r <= 1.
Proof.
  intros Hsqrt Hb Hr.
  assert (Hne : dataTime <> []) by (intros ->; discriminate Hr).
  destruct (raw_defined sqrt dataTime dataFreq Hne) as (r' & E & L & B & M & T).
  assert (r' = r) by congruence. subst r'.
  pose proof (band_limits (Z.of_nat (length dataFreq)) ltac:(lia)) as (H1 & H2 & H3).
  intros [| | |]; cbn [target].
  - rewrite L. pose proof (Hsqrt (meanSquare dataTime)).
    destruct (Q.min_spec 1 (sqrt (meanSquare dataTime) * 2)) as [[C E']|[C E']];
      rewrite E'; split; lra.
  - refine (avg_unit dataFreq _ _ _ _ _ Hb B); unfold b0; lia.
  - refine (avg_unit dataFreq _ _ _ H1 _ Hb M). lia.
  - refine (avg_unit dataFreq _ _ _ _ _ Hb T); unfold t1; lia.
Qed.

(** X12. If the four features lie between 0 and 1 and the smoothing
    coefficient does too, they still do after any number of updates, on
    whatever byte buffers, provided the square root of the host is never
    negative; the coefficient is never changed.  An object whose analyser
    was never created is left as it is by every update. *)
Theorem features_stay_in_unit_interval :
  forall (sqrt : Q -> Q) (dataTime dataFreq : list Z) (n : nat)
         (a a' : AudioInput),
    (analyser a = false -> updateN sqrt dataTime dataFreq n a = Some a)
    /\ ((forall q, 0 <= sqrt q) -> Forall isByte dataFreq ->
        0 <= _smooth a -> _smooth a <= 1 -> unitFeatures a ->
        updateN sqrt dataTime dataFreq n a = Some a' ->
        unitFeatures a' /\ _smooth a' = _smooth a).
Proof.
  intros sqrt dataTime dataFreq n a a'. split.
  - intros Ha. induction n as [|n IH]; [reflexivity|].
    cbn [updateN]. rewrite IH. unfold update. rewrite Ha. reflexivity.
  - intros Hsqrt Hb K0 K1 Hu. revert a'.
    induction n as [|n IH]; intros a' E; cbn [updateN] in E.
    + injection E as <-. auto.
    + destruct (updateN sqrt dataTime dataFreq n a) as [a1|]; [|discriminate].
      destruct (IH a1 eq_refl) as [Hu1 Hk1].
      unfold update in E. destruct (analyser a1); cbn [negb] in E.
      * destruct (raw sqrt dataTime dataFreq) as [r|] eqn:Er; [|discriminate].
        injection E as <-. split.
        -- apply smooth_unit; rewrite ?Hk1; try assumption.
           apply (raw_unit sqrt dataTime dataFreq r Hsqrt Hb Er).
        -- exact Hk1.
      * injection E as <-. auto.
Qed.

(** Five updates of an object that was never started, and two updates of
    a started one on a loud buffer, with squaring standing in for the
    square root. *)
Lemma features_stay_in_unit_interval_witness :
  updateN (fun q => q) [255%Z] [255%Z] 5 constructor = Some constructor
  /\ exists a', updateN (fun q => q * q) [255%Z] [255%Z] 2 (withFeatures 0 0 0 0)
                = Some a' /\ unitFeatures a'.
Proof.
  split.
  - apply (features_stay_in_unit_interval (fun q => q) [255%Z] [255%Z] 5
             constructor constructor). reflexivity.
  - destruct (updateN (fun q => q * q) [255%Z] [255%Z] 2 (withFeatures 0 0 0 0))
      as [a'|] eqn:E; [|vm_compute in E; discriminate].
    exists a'. split; [reflexivity|].
    apply (features_stay_in_unit_interval (fun q => q * q) [255%Z] [255%Z] 2
             (withFeatures 0 0 0 0) a'); try exact E.
    + intros q. nra.
    + repeat constructor; unfold isByte; lia.
    + discriminate.
    + discriminate.
    + intros [| | |]; cbn; split; discriminate.
Defined.

(** ** Band averages are means *)

Lemma total_between (l : list Z) (lo hi : Z) :
  Forall (fun x => (lo <= x <= hi)%Z) l ->
  (lo * Z.of_nat (length l) <= total l <= hi * Z.of_nat (length l))%Z.
Proof.
  induction 1 as [|x l Hx _ IH]; cbn [total fold_right length].
  - lia.
  - unfold total in IH. lia.
Qed.

Lemma bins_length_exact (data : list Z) (from to : Z) :
  (0 <= from <= to)%Z -> (to <= Z.of_nat (length data))%Z ->
  Z.of_nat (length (bins data from to)) = (to - from)%Z.
Proof.
  intros H1 H2. unfold bins. rewrite length_firstn, length_skipn. lia.
Qed.

Lemma quotient_between (s d lo hi : Z) :
  (0 < d)%Z -> (lo * d <= s <= hi * d)%Z ->
  inject_Z lo / 255 <= inject_Z s / inject_Z d / 255
  /\ inject_Z s / inject_Z d / 255 <= inject_Z hi / 255.
Proof.
  intros Hd [Hlo Hhi].
  assert (Hdq : 0 < inject_Z d) by (unfold Qlt; cbn; lia).
  assert (A : inject_Z lo * inject_Z d <= inject_Z s)
    by (rewrite <- inject_Z_mult, <- Zle_Qle; exact Hlo).
  assert (B : inject_Z s <= inject_Z hi * inject_Z d)
    by (rewrite <- inject_Z_mult, <- Zle_Qle; exact Hhi).
  assert (C : inject_Z lo <= inject_Z s / inject_Z d)
    by (apply Qle_shift_div_l; assumption).
  assert (D : inject_Z s / inject_Z d <= inject_Z hi)
    by (apply Qle_shift_div_r; assumption).
  split.
  - apply Qle_shift_div_l; [reflexivity|].
    setoid_replace (inject_Z lo / 255 * 255) with (inject_Z lo) by field. exact C.
  - apply Qle_shift_div_r; [reflexivity|].
    setoid_replace (inject_Z hi / 255 * 255) with (inject_Z hi) by field. exact D.
Qed.

(** X13. Over a non-empty range of bins inside the buffer the divisor is
    the number of bins, so [avg] is the arithmetic mean of the bins over
    255: it lies between the smallest and the largest bin over 255, and it
    is [c / 255] when all bins equal [c].  Over an empty range it is 0.
    With at least 7 bins none of the three bands is empty. *)
Theorem band_average_is_a_mean :
  forall (dataFreq : list Z) (from to lo hi : Z) (q : Q),
    ((0 <= from)%Z -> (from < to)%Z -> (to <= Z.of_nat (length dataFreq))%Z ->
     Forall (fun x => (lo <= x <= hi)%Z) dataFreq ->
     avg dataFreq from to = Some q ->
     q == inject_Z (total (bins dataFreq from to)) / inject_Z (to - from) / 255
     /\ inject_Z lo / 255 <= q /\ q <= inject_Z hi / 255
     /\ (lo = hi -> q == inject_Z lo / 255))
    /\ ((0 <= from)%Z -> (to <= from)%Z ->
        avg dataFreq from to = Some q -> q == 0)
    /\ ((7 <= Z.of_nat (length dataFreq))%Z ->
        let n := Z.of_nat (length dataFreq) in
        (b0 < b1 n)%Z /\ (b1 n < m1 n)%Z /\ (m1 n < t1 n)%Z).
Proof.
  intros dataFreq from to lo hi q. split; [|split].
  - intros H0 Hlt Hn Hb Hq.
    rewrite avg_bins in Hq by assumption. injection Hq as <-.
    replace (Z.max 1 (to - from)) with (to - from)%Z by lia.
    pose proof (total_between _ lo hi (Forall_bins _ dataFreq from to Hb)) as Ht.
    rewrite (bins_length_exact dataFreq from to) in Ht by lia.
    destruct (quotient_between (total (bins dataFreq from to)) (to - from) lo hi
                ltac:(lia) Ht) as [A B].
    split; [reflexivity|]. split; [exact A|]. split; [exact B|].
    intros ->. apply Qle_antisym; assumption.
  - intros H0 Hle Hq.
    unfold avg in Hq. replace (Z.to_nat (to - from)) with 0%nat in Hq by lia.
    cbn [sumLoop] in Hq. rewrite div_nonzero in Hq.
    2:{ intros E. unfold Qeq in E. cbn in E. lia. }
    rewrite div_nonzero in Hq by discriminate. injection Hq as <-.
    unfold Qdiv. change (inject_Z 0) with 0. ring.
  - intros Hn n. unfold b0, t1.
    change (b1 n) with (n * 15 / 100)%Z. change (m1 n) with (n * 55 / 100)%Z.
    assert (Hn' : (7 <= n)%Z) by exact Hn.
    pose proof (Z.div_mod (n * 15) 100 ltac:(lia)) as D1.
    pose proof (Z.mod_pos_bound (n * 15) 100 ltac:(lia)) as M1.
    pose proof (Z.div_mod (n * 55) 100 ltac:(lia)) as D2.
    pose proof (Z.mod_pos_bound (n * 55) 100 ltac:(lia)) as M2.
    lia.
Qed.

(** Four bins, all 51, averaged over the first two: 51/255. *)
Lemma band_average_is_a_mean_witness :
  exists q, avg [51; 51; 51; 51]%Z 0 2 = Some q /\ q == inject_Z 51 / 255.
Proof.
  destruct (avg [51; 51; 51; 51]%Z 0 2) as [q|] eqn:E;
    [|vm_compute in E; discriminate].
  exists q. split; [reflexivity|].
  destruct (band_average_is_a_mean [51; 51; 51; 51]%Z 0 2 51 51 q) as (H & _).
  destruct H as (_ & _ & _ & Hc); try exact E; try (cbn; lia).
  - repeat constructor; lia.
  - apply Hc. reflexivity.
Defined.

End AudioRangeFacts.

(* ================================================================== *)
(** * Smoothing in binary64 arithmetic                                 *)
(* ================================================================== *)

Module Audio64Facts.
Import Floats Audio64.
Local Open Scope float_scope.
Local Set Warnings "-inexact-float".

(** ** One update and [n] updates *)





(** ** What a successful walk establishes *)


(** ** The constant buffers, value by value *)






(** ** The claim as stated, and what holds instead *)


(** From 0 towards 0.5 the feature stops short of it, three units in the
    last place below. *)
Lemma stops_short_of_target :
  forall n, (218 <= n)%nat ->
            emaN n 0.85 0 0.5 = 0x1.ffffffffffffdp-2
            /\ (emaN n 0.85 0 0.5 <? 0.5) = true.
Proof.
  assert (E : emaN 218 0.85 0 0.5 = 0x1.ffffffffffffdp-2)
    by (vm_compute; reflexivity).
  assert (F : ema 0.85 0x1.ffffffffffffdp-2 0.5 = 0x1.ffffffffffffdp-2)
    by (vm_compute; reflexivity).
  assert (G : forall m, emaN (m + 218) 0.85 0 0.5 = 0x1.ffffffffffffdp-2).
  { induction m as [|m IH]; [exact E|].
    cbn [Nat.add emaN]. rewrite IH. exact F. }
  intros n Hn. replace n with ((n - 218) + 218)%nat by lia.
  rewrite G. split; reflexivity.
Qed.



End Audio64Facts.

(* ================================================================== *)
(** * Further properties of the verse overlay                          *)
(* ================================================================== *)

Module SketchFacts.
Import Overlay Sketch OverlayFacts ColorsFacts.
Local Open Scope Q_scope.

(** ** Opacity *)

(** X15. With a non-zero fade duration, the opacity of every frame lies
    between 0 and 1, and so the opacity byte of the plate behind the text,
    [255 * 0.22 * alpha], between 0 and 56.1. *)
Theorem frame_opacity_in_unit_interval :
  forall (cfg : VerseConfig) (pal : list Color) (textWidth : jsstring -> Q)
         (maxW : Q) (tk : Tick) (st st' : State) (fr : Frame),
    ~ fadeMs cfg == 0 ->
    draw cfg pal textWidth maxW tk st = Some (st', fr) ->
    0 <= alpha fr /\ alpha fr <= 1
    /\ 0 <= plateFill (alpha fr) /\ plateFill (alpha fr) <= 561 # 10.
Proof.
  intros cfg pal textWidth maxW tk st st' fr _ Hd.
  unfold draw in Hd. destruct (current st) as [v|]; [|discriminate].
  injection Hd as _ <-. cbn [alpha]. unfold plateFill.
  set (a := alphaEnvelope cfg (tickNow tk) _).
  assert (Ha : 0 <= a /\ a <= 1).
  { subst a. unfold alphaEnvelope. destruct (_ && _)%bool; [|split; lra].
    cbv zeta.
    match goal with
    | |- context [clamp01 ?t] => destruct (clamp01_unit t) as [A B]
    end.
    split; lra. }
  destruct Ha. repeat split; lra.
Qed.

Lemma frame_opacity_in_unit_interval_witness :
  exists st' fr,
    draw CONFIG_verse palette (fun s => inject_Z (Z.of_nat (length s))) 292
         (mkTick 11656 0) latched_example = Some (st', fr)
    /\ 0 <= alpha fr /\ alpha fr <= 1.
Proof.
  set (tw := fun s : jsstring => inject_Z (Z.of_nat (length s))).
  destruct (draw CONFIG_verse palette tw 292 (mkTick 11656 0) latched_example)
    as [[st' fr]|] eqn:E; [|vm_compute in E; discriminate].
  exists st', fr. split; [reflexivity|].
  destruct (frame_opacity_in_unit_interval CONFIG_verse palette tw 292
              (mkTick 11656 0) latched_example st' fr) as (A & B & _);
    [discriminate|exact E|]. split; assumption.
Defined.

(** ** The reveal *)

Lemma quotient_monotone (x y m : Q) : 0 < m -> x <= y -> x / m <= y / m.
Proof.
  intros Hm Hxy. unfold Qdiv. apply Qmult_le_compat_r; [exact Hxy|].
  apply Qlt_le_weak, Qinv_lt_0_compat, Hm.
Qed.

Lemma charsVisible_monotone cfg st (now now' : Q) :
  0 < msPerChar cfg -> now <= now' ->
  (charsVisible cfg now st <= charsVisible cfg now' st)%Z.
Proof.
  intros Hm Hle. unfold charsVisible. apply Qfloor_resp_le.
  apply quotient_monotone; [exact Hm|lra].
Qed.

Lemma charsVisible_nonneg cfg st (now : Q) :
  0 < msPerChar cfg -> startMs st <= now -> (0 <= charsVisible cfg now st)%Z.
Proof.
  intros Hm Hle. unfold charsVisible. change 0%Z with (Qfloor 0).
  apply Qfloor_resp_le.
  destruct (quotient_sign (now - startMs st) (msPerChar cfg) Hm) as (_ & H & _).
  apply H. lra.
Qed.

Lemma visibleText_firstn cfg st v (now : Q) :
  (0 <= charsVisible cfg now st)%Z ->
  visibleText cfg now st v
  = firstn (Z.to_nat (charsVisible cfg now st)) (buildFullText v).
Proof.
  intros H. unfold visibleText, slice0. cbv zeta.
  destruct (Z.ltb_spec (Z.min (Z.of_nat (length (buildFullText v)))
                          (charsVisible cfg now st)) 0) as [Hneg|_]; [lia|].
  destruct (Z.le_ge_cases (Z.of_nat (length (buildFullText v)))
              (charsVisible cfg now st)) as [Hfull|Hpart].
  - rewrite Z.min_l by exact Hfull. rewrite Nat2Z.id.
    rewrite firstn_all. symmetry. apply firstn_all2. lia.
  - rewrite Z.min_r by exact Hpart. reflexivity.
Qed.

(** X16. With a positive [msPerChar] and a clock that is not before
    [startMs]: the number of visible characters is not negative and does
    not decrease as the clock advances; the text shown is the first
    [min(totalChars, charsVisible)] units of the composed text, the whole
    of it once the count has reached its length; and what a later frame
    shows extends what an earlier frame showed. *)
Theorem reveal_grows_by_prefixes :
  forall (cfg : VerseConfig) (st : State) (v : Verse) (now now' : Q),
    0 < msPerChar cfg -> startMs st <= now -> now <= now' ->
    let full := buildFullText v in
    (0 <= charsVisible cfg now st <= charsVisible cfg now' st)%Z
    /\ visibleText cfg now st v
       = firstn (Z.to_nat (Z.min (Z.of_nat (length full))
                                 (charsVisible cfg now st))) full
    /\ ((Z.of_nat (length full) <= charsVisible cfg now st)%Z ->
        visibleText cfg now st v = full)
    /\ exists more, visibleText cfg now' st v
                    = visibleText cfg now st v ++ more.
Proof.
  intros cfg st v now now' Hm Hs Hle full.
  pose proof (charsVisible_nonneg cfg st now Hm Hs) as H0.
  pose proof (charsVisible_monotone cfg st now now' Hm Hle) as H1.
  assert (H0' : (0 <= charsVisible cfg now' st)%Z) by lia.
  split; [lia|].
  rewrite (visibleText_firstn cfg st v now H0).
  rewrite (visibleText_firstn cfg st v now' H0'). fold full.
  split; [|split].
  - destruct (Z.le_ge_cases (Z.of_nat (length full)) (charsVisible cfg now st)).
    + rewrite Z.min_l by assumption. rewrite Nat2Z.id, firstn_all.
      apply firstn_all2. lia.
    + rewrite Z.min_r by assumption. reflexivity.
  - intros Hfull. apply firstn_all2. lia.
  - set (k := Z.to_nat (charsVisible cfg now st)).
    set (k' := Z.to_nat (charsVisible cfg now' st)).
    assert (Hk : (k <= k')%nat) by (subst k k'; lia).
    exists (firstn (k' - k) (skipn k full)).
    rewrite <- (firstn_skipn k (firstn k' full)) at 1.
    rewrite firstn_firstn, Nat.min_l by exact Hk.
    f_equal. apply skipn_firstn_comm.
Qed.

(** A short verse, 280 ms and 560 ms after its start: 10 units, then all
    11. *)
Lemma reveal_grows_by_prefixes_witness :
  let v := {| ref := [80; 115]%N; text := [84; 104; 121]%N |} in
  exists more,
    visibleText CONFIG_verse 560 (setup 0 (create palette 0)) v
    = visibleText CONFIG_verse 280 (setup 0 (create palette 0)) v ++ more.
Proof.
  intros v.
  apply (reveal_grows_by_prefixes CONFIG_verse (setup 0 (create palette 0)) v
           280 560); [reflexivity|discriminate|discriminate].
Defined.

(** ** Timestamps *)

Lemma ordered_reveal cfg total now st :
  0 < msPerChar cfg -> (1 <= total)%Z ->
  ordered cfg st -> ordered cfg (reveal cfg total now st).
Proof.
  intros Hm Ht [Hs Ho]. unfold reveal.
  destruct (Z.leb_spec total (charsVisible cfg now st)) as [Hc|_];
    [|split; assumption].
  destruct (Qeq_bool (revealDoneMs st) 0); cbn [andb]; [|split; assumption].
  pose proof (reveal_time_positive cfg total now st Hm Hs Ht Hc) as Hnow.
  split; [exact Hs|]. right. cbn.
  unfold charsVisible in Hc.
  pose proof (Qfloor_le ((now - startMs st) / msPerChar cfg)) as Hf.
  assert (H1 : 1 <= inject_Z (Qfloor ((now - startMs st) / msPerChar cfg))).
  { change 1 with (inject_Z 1). rewrite <- Zle_Qle. lia. }
  pose proof (quotient_times (now - startMs st) (msPerChar cfg) Hm) as E.
  repeat split; try reflexivity. nra.
Qed.

Lemma ordered_cycle cfg pal r now st :
  0 <= holdMs cfg -> 0 <= fadeMs cfg -> 0 <= gapMs cfg ->
  ordered cfg st -> ordered cfg (cycle pal r now st).
Proof.
  intros Hh Hf Hg [Hs Ho]. unfold cycle.
  destruct (nonzero (cycleDoneMs st)) eqn:En; cbn [andb]; [|split; assumption].
  destruct (Qle_bool (cycleDoneMs st) now) eqn:El; [|split; assumption].
  apply nonzero_true in En. apply Qle_bool_iff in El.
  destruct Ho as [(_ & _ & Hz)|(H1 & H2 & H3)]; [contradiction|].
  split; cbn; [lra|]. left. repeat split; reflexivity.
Qed.

(** X17. With a positive [msPerChar], non-negative hold, fade and gap
    durations and a set-up time that is not negative, every state reached
    by drawing frames, at whatever times, has its timestamps in order:
    either the three derived ones are all cleared, or
    [startMs < revealDoneMs <= fadeStartMs <= cycleDoneMs] with
    [fadeStartMs = revealDoneMs + holdMs] and
    [cycleDoneMs = fadeStartMs + fadeMs + gapMs]. *)
Theorem timestamps_stay_ordered :
  forall (cfg : VerseConfig) (pal : list Color) (textWidth : jsstring -> Q)
         (maxW : Q) (tks : list Tick) (r0 t0 : Q) (st : State),
    0 < msPerChar cfg -> 0 <= holdMs cfg -> 0 <= fadeMs cfg ->
    0 <= gapMs cfg -> 0 <= t0 ->
    frames cfg pal textWidth maxW tks (setup t0 (create pal r0)) = Some st ->
    ordered cfg st
    /\ (~ revealDoneMs st == 0 ->
        startMs st < revealDoneMs st /\ revealDoneMs st <= fadeStartMs st
        /\ fadeStartMs st <= cycleDoneMs st).
Proof.
  intros cfg pal textWidth maxW tks r0 t0 st Hm Hh Hf Hg Ht0 Hreach.
  assert (Hgen : forall s0, ordered cfg s0 ->
                   frames cfg pal textWidth maxW tks s0 = Some st ->
                   ordered cfg st).
  { clear Hreach. induction tks as [|tk tks IH]; intros s0 Ho E; cbn [frames] in E.
    - injection E as <-. exact Ho.
    - unfold draw in E. destruct (current s0) as [v|]; [|discriminate].
      eapply IH; [|exact E].
      apply ordered_cycle; try assumption.
      apply ordered_reveal; try assumption. apply buildFullText_length. }
  assert (Ho : ordered cfg st).
  { apply (Hgen (setup t0 (create pal r0))); [|exact Hreach].
    split; [exact Ht0|]. left. cbn. repeat split; reflexivity. }
  split; [exact Ho|].
  intros Hn. destruct Ho as [_ [(Hz & _)|(H1 & H2 & H3)]]; [contradiction|].
  repeat split; lra.
Qed.

Lemma timestamps_stay_ordered_witness :
  ordered CONFIG_verse latched_example
  /\ startMs latched_example < revealDoneMs latched_example.
Proof.
  destruct (timestamps_stay_ordered CONFIG_verse palette
              (fun s => inject_Z (Z.of_nat (length s))) 292 [mkTick 2156 0] 0 0
              latched_example) as [Ho Hlt];
    try reflexivity; try discriminate.
  split; [exact Ho|]. apply Hlt. discriminate.
Defined.

(** A frame keeps the accent or picks a new one. *)
Lemma accent_draw cfg pal textWidth maxW tk st st' fr :
  draw cfg pal textWidth maxW tk st = Some (st', fr) ->
  accent st' = accent st
  \/ accent st' = Overlay.pickPalette pal (tickRandom tk).
Proof.
  intros Hd. unfold draw in Hd.
  destruct (current st) as [v|]; [|discriminate].
  injection Hd as <- _. unfold cycle.
  destruct (_ && _)%bool.
  - right. reflexivity.
  - left. apply (reveal_frame cfg (Z.of_nat (length (buildFullText v)))
                   (tickNow tk) st).
Qed.

Lemma pickPalette_empty (r : Q) : Overlay.pickPalette [] r = None.
Proof.
  unfold Overlay.pickPalette, index.
  destruct (_ <? 0)%Z; [reflexivity|]. destruct (Z.to_nat _); reflexivity.
Qed.

(** X18. With a non-empty palette, random numbers in [[0, 1)] and a
    [msPerChar] other than zero, no call of [p.draw] raises: after any
    sequence of frames from the initial state the verse index is within
    [0 .. 7], [current] is the verse of the table at that index and
    [accent] is a colour of the palette, so [buildFullText] has a verse to
    read and [accent.hex] a colour.  With an empty palette the first frame
    raises. *)
Theorem drawing_always_has_a_verse :
  forall (cfg : VerseConfig) (pal : list Color) (textWidth : jsstring -> Q)
         (maxW : Q) (tks : list Tick) (r0 t0 : Q),
    (pal <> [] -> 0 <= r0 -> r0 < 1 -> ~ msPerChar cfg == 0 ->
     Forall (fun tk => 0 <= tickRandom tk /\ tickRandom tk < 1) tks ->
     exists st v c,
       drawFrames cfg pal textWidth maxW tks (setup t0 (create pal r0))
       = Some st
       /\ (0 <= verseIndex st < verseCount)%Z
       /\ current st = Some v
       /\ nth_error verses (Z.to_nat (verseIndex st)) = Some v
       /\ accent st = Some c /\ In c pal)
    /\ (pal = [] ->
        forall tk, drawFrame cfg pal textWidth maxW tk (setup t0 (create pal r0))
                   = None).
Proof.
  intros cfg pal textWidth maxW tks r0 t0. split.
  - intros Hp H0 H1 _ Htks.
    assert (Hgen : forall s0,
               selected s0 -> (exists c, accent s0 = Some c /\ In c pal) ->
               exists st, drawFrames cfg pal textWidth maxW tks s0 = Some st
                          /\ selected st
                          /\ exists c, accent st = Some c /\ In c pal).
    { induction Htks as [|tk tks [R0 R1] _ IH]; intros s0 Hs Ha; cbn [drawFrames].
      - exists s0. auto.
      - destruct (selected_draw cfg pal textWidth maxW tk s0 Hs)
          as (s1 & fr & E & Hs1).
        assert (Ha1 : exists c, accent s1 = Some c /\ In c pal).
        { destruct (accent_draw _ _ _ _ _ _ _ _ E) as [-> | ->];
            [exact Ha|apply pickPalette_in; assumption]. }
        destruct Ha1 as (c & Ec & Hc).
        unfold drawFrame. rewrite E, Ec. apply IH; [exact Hs1|eauto]. }
    destruct (Hgen (setup t0 (create pal r0))) as (st & E & [Hi Hc] & c & Ec & Hin).
    + apply selected_setup, selected_create.
    + cbn [setup create accent]. apply pickPalette_in; assumption.
    + destruct (index_verses (verseIndex st) Hi) as [v Hv].
      exists st, v, c. split; [exact E|]. split; [exact Hi|].
      split; [congruence|].
      split; [|split; assumption].
      unfold index in Hv. destruct (Z.ltb_spec (verseIndex st) 0); [lia|exact Hv].
  - intros -> tk. unfold drawFrame.
    destruct (draw cfg [] textWidth maxW tk (setup t0 (create [] r0)))
      as [[st' fr]|] eqn:E; [|reflexivity].
    destruct (accent_draw _ _ _ _ _ _ _ _ E) as [-> | ->].
    + cbn [setup create accent]. rewrite pickPalette_empty. reflexivity.
    + rewrite pickPalette_empty. reflexivity.
Qed.

Lemma drawing_always_has_a_verse_witness :
  exists st v c,
    drawFrames CONFIG_verse palette (fun s => inject_Z (Z.of_nat (length s))) 40
      [ {| tickNow := 16; tickRandom := 1 # 2 |};
        {| tickNow := 2156; tickRandom := 1 # 4 |};
        {| tickNow := 12756; tickRandom := 3 # 4 |} ]
      (setup 0 (create palette (1 # 3)))
    = Some st
    /\ (0 <= verseIndex st < verseCount)%Z
    /\ current st = Some v
    /\ nth_error verses (Z.to_nat (verseIndex st)) = Some v
    /\ accent st = Some c /\ In c palette.
Proof.
  apply (proj1 (drawing_always_has_a_verse CONFIG_verse palette
                  (fun s => inject_Z (Z.of_nat (length s))) 40
                  [ {| tickNow := 16; tickRandom := 1 # 2 |};
                    {| tickNow := 2156; tickRandom := 1 # 4 |};
                    {| tickNow := 12756; tickRandom := 3 # 4 |} ]
                  (1 # 3) 0)).
  - discriminate.
  - discriminate.
  - reflexivity.
  - discriminate.
  - repeat (apply Forall_cons; [split; [discriminate|reflexivity]|]).
    apply Forall_nil.
Defined.

(** ** The wobble *)

(** X19. For a level between 0 and 1 the wobble size [j] is 0 or 1: it is
    0 below a level of 0.4 and 1 from 0.4 on.  The offset is 0 when [j] is
    0, and otherwise lies in [[-j, j)] for a uniform number in [[0, 1)];
    so the text never moves by more than one pixel. *)
Theorem wobble_at_most_one_pixel :
  forall (level r : Q),
    0 <= level -> level <= 1 -> 0 <= r -> r < 1 ->
    (level < 4 # 10 -> jitterSize level = 0%Z /\ jitter level r == 0)
    /\ (4 # 10 <= level -> jitterSize level = 1%Z)
    /\ - inject_Z (jitterSize level) <= jitter level r
    /\ jitter level r <= inject_Z (jitterSize level)
    /\ -1 <= jitter level r /\ jitter level r < 1.
Proof.
  intros level r L0 L1 R0 R1.
  assert (Hlo : level < 4 # 10 -> jitterSize level = 0%Z).
  { intros H. unfold jitterSize, round. apply Qfloor_unique.
    - change (inject_Z 0) with 0. lra.
    - change (inject_Z (0 + 1)) with 1. lra. }
  assert (Hhi : 4 # 10 <= level -> jitterSize level = 1%Z).
  { intros H. unfold jitterSize, round. apply Qfloor_unique.
    - change (inject_Z 1) with 1. lra.
    - change (inject_Z (1 + 1)) with 2. lra. }
  destruct (Qlt_le_dec level (4 # 10)) as [H|H].
  - pose proof (Hlo H) as E. unfold jitter. rewrite E. cbn [Z.ltb Z.compare].
    change (inject_Z 0) with 0.
    repeat split; intros; try reflexivity; try lra; exfalso; lra.
  - pose proof (Hhi H) as E. unfold jitter. rewrite E. cbn [Z.ltb Z.compare].
    unfold random. change (inject_Z 1) with 1.
    repeat split; intros; try reflexivity; try lra; exfalso; lra.
Qed.

Lemma wobble_at_most_one_pixel_witness :
  jitterSize (1 # 2) = 1%Z
  /\ -1 <= jitter (1 # 2) (3 # 4) /\ jitter (1 # 2) (3 # 4) < 1.
Proof.
  destruct (wobble_at_most_one_pixel (1 # 2) (3 # 4)) as (_ & H1 & _ & _ & A & B);
    try discriminate; try reflexivity.
  split; [apply H1; discriminate|]. split; assumption.
Defined.

(** ** Wrapping when every word fits *)

Lemma wordLoop_fits textWidth maxWidth (ws : list jsstring) :
  (forall w, In w ws -> truthy w = true -> textWidth w <= maxWidth) ->
  forall line lines,
    (truthy line = true -> textWidth line <= maxWidth) ->
    Forall (fun l => truthy l = true -> textWidth l <= maxWidth) lines ->
    Forall (fun l => truthy l = true -> textWidth l <= maxWidth)
      (snd (wordLoop textWidth maxWidth ws line lines))
    /\ (truthy (fst (wordLoop textWidth maxWidth ws line lines)) = true ->
        textWidth (fst (wordLoop textWidth maxWidth ws line lines)) <= maxWidth).
Proof.
  induction ws as [|w rest IH]; intros Hws line lines Hline Hlines;
    cbn [wordLoop].
  - split; assumption.
  - cbv zeta. destruct (Qle_bool _ maxWidth) eqn:E.
    + apply IH; [intros; apply Hws; [right|]; assumption| |exact Hlines].
      intros _. apply Qle_bool_iff, E.
    + apply IH; [intros; apply Hws; [right|]; assumption| |].
      * apply Hws. left. reflexivity.
      * destruct (truthy line); [|exact Hlines].
        apply Forall_app. split; [exact Hlines|].
        constructor; [intros _; apply Hline; reflexivity|constructor].
Qed.

Lemma wrapParagraph_fits textWidth maxWidth (para : jsstring) :
  (forall w, In w (wordsOf para) -> textWidth w <= maxWidth) ->
  Forall (fun l => truthy l = true -> textWidth l <= maxWidth)
    (wrapParagraph textWidth maxWidth [] para).
Proof.
  intros Hw. unfold wrapParagraph. destruct (truthy (trim para)).
  - destruct (wordLoop_fits textWidth maxWidth (splitSpaces false para))
      with (line := @nil N) (lines := @nil jsstring) as [Hls Hl].
    + intros w Hin Ht. apply Hw. rewrite <- splitSpaces_words.
      apply filter_In. split; assumption.
    + discriminate.
    + constructor.
    + destruct (wordLoop textWidth maxWidth (splitSpaces false para) [] [])
        as [line ls]. cbn [fst snd] in *.
      destruct (truthy line) eqn:Et; [|exact Hls].
      apply Forall_app. split; [exact Hls|].
      constructor; [intros _; apply Hl; reflexivity|constructor].
  - constructor; [discriminate|constructor].
Qed.

(** X20. If no single word of the text is wider than the maximum, no
    line returned by [wrapLines] is wider than the maximum, the empty lines
    standing for blank paragraphs apart. *)
Theorem wrapLines_fits_when_words_fit :
  forall (textWidth : jsstring -> Q) (str : jsstring) (maxWidth : Q),
    (forall w, In w (wordsOf str) -> textWidth w <= maxWidth) ->
    forall l, In l (wrapLines textWidth str maxWidth) ->
              l <> [] -> textWidth l <= maxWidth.
Proof.
  intros textWidth str maxWidth Hw l Hin Hne.
  rewrite wrapLines_paragraphs in Hin.
  apply in_flat_map in Hin. destruct Hin as (para & Hpara & Hin).
  assert (Hsub : forall w, In w (wordsOf para) -> textWidth w <= maxWidth).
  { intros w Hwin. apply Hw.
    rewrite <- (join_split 10 str), wordsOf_join.
    apply in_flat_map. exists para. split; assumption. }
  pose proof (wrapParagraph_fits textWidth maxWidth para Hsub) as H.
  rewrite Forall_forall in H. apply (H l Hin).
  destruct l; [contradiction|reflexivity].
Qed.

(** "ab cd e" at width 5, one unit of width per code unit. *)
Lemma wrapLines_fits_when_words_fit_witness :
  let tw := fun s : jsstring => inject_Z (Z.of_nat (length s)) in
  wrapLines tw [97; 98; 32; 99; 100; 32; 101]%N 5
  = [[97; 98; 32; 99; 100]; [101]]%N
  /\ tw [97; 98; 32; 99; 100]%N <= 5.
Proof.
  intros tw. split; [reflexivity|].
  apply (wrapLines_fits_when_words_fit tw [97; 98; 32; 99; 100; 32; 101]%N 5).
  - intros w Hin. cbn in Hin.
    destruct Hin as [<-|[<-|[<-|[]]]]; discriminate.
  - left. reflexivity.
  - discriminate.
Defined.

(** ** The layout of the composed text *)

Lemma split_no_separator (sep : N) (s : jsstring) :
  forallb (fun c => negb (N.eqb c sep)) s = true -> split sep s = [s].
Proof.
  induction s as [|c r IH]; [reflexivity|]. cbn.
  destruct (N.eqb c sep); cbn; [discriminate|].
  intros H. rewrite (IH H). reflexivity.
Qed.

Lemma split_at_separator (sep : N) (a b : jsstring) :
  forallb (fun c => negb (N.eqb c sep)) a = true ->
  split sep (a ++ sep :: b) = a :: split sep b.
Proof.
  induction a as [|c r IH]; cbn.
  - intros _. rewrite N.eqb_refl. reflexivity.
  - destruct (N.eqb c sep); cbn; [discriminate|].
    intros H. rewrite (IH H). reflexivity.
Qed.

Lemma trim_not_blank (s : jsstring) (c : N) :
  In c s -> isWhiteSpace c = false -> truthy (trim s) = true.
Proof.
  intros Hin Hc. destruct (truthy (trim s)) eqn:E; [reflexivity|].
  pose proof (trim_blank s E) as Hall.
  rewrite forallb_forall in Hall. rewrite (Hall c Hin) in Hc. discriminate.
Qed.

(** X21. When neither the verse body nor the citation contains a line
    break, the composed text has exactly three paragraphs, the quotation
    in its marks, an empty one, and the citation after its dash; so the
    wrapped full text is the wrapped quotation, one empty line, and the
    wrapped citation, the first and the last each giving at least one line.
    The eight verses of the table contain no line break. *)
Theorem composed_text_has_one_blank_line :
  forall (textWidth : jsstring -> Q) (maxWidth : Q) (v : Verse),
    (noNewline (text v) = true -> noNewline (ref v) = true ->
     split 10 (buildFullText v) = [quotation v; []; citation v]
     /\ wrapLines textWidth (buildFullText v) maxWidth
        = wrapParagraph textWidth maxWidth [] (quotation v)
          ++ [[]] ++ wrapParagraph textWidth maxWidth [] (citation v)
     /\ wrapParagraph textWidth maxWidth [] (quotation v) <> []
     /\ wrapParagraph textWidth maxWidth [] (citation v) <> [])
    /\ forallb (fun x => noNewline (text x) && noNewline (ref x))%bool verses
       = true.
Proof.
  intros textWidth maxWidth v. split; [|reflexivity].
  intros Ht Hr.
  assert (Hq : forallb (fun c => negb (N.eqb c 10)) (quotation v) = true).
  { unfold quotation. rewrite !forallb_app. cbn. rewrite andb_true_r. exact Ht. }
  assert (Hc : forallb (fun c => negb (N.eqb c 10)) (citation v) = true).
  { unfold citation. rewrite forallb_app. cbn. exact Hr. }
  assert (Es : split 10 (buildFullText v) = [quotation v; []; citation v]).
  { change (buildFullText v)
      with ([8220%N] ++ text v ++ [8221%N] ++ [10%N; 10%N] ++ citation v).
    replace ([8220%N] ++ text v ++ [8221%N] ++ [10%N; 10%N] ++ citation v)
      with (quotation v ++ 10%N :: ([] ++ 10%N :: citation v)).
    2:{ unfold quotation. rewrite <- !app_assoc. reflexivity. }
    rewrite (split_at_separator 10 (quotation v) _ Hq).
    rewrite (split_at_separator 10 [] (citation v) eq_refl).
    rewrite (split_no_separator 10 (citation v) Hc). reflexivity. }
  assert (Nonempty : forall para c, In c para -> isWhiteSpace c = false ->
            wrapParagraph textWidth maxWidth [] para <> []).
  { intros para c Hin Hws Hnil.
    pose proof (wrapParagraph_words textWidth maxWidth para) as Hwords.
    rewrite Hnil in Hwords. cbn in Hwords.
    assert (Hall : forallb isWhiteSpace para = true).
    { clear - Hwords. unfold wordsOf in Hwords.
      induction para as [|x r IH]; [reflexivity|]. cbn in *.
      destruct (isWhiteSpace x) eqn:Ex.
      - cbn in Hwords. apply IH. exact Hwords.
      - destruct (pieces r); cbn in Hwords; discriminate. }
    rewrite forallb_forall in Hall. rewrite (Hall c Hin) in Hws. discriminate. }
  split; [exact Es|]. split.
  - rewrite wrapLines_paragraphs, Es. cbn [flat_map].
    rewrite app_nil_r. reflexivity.
  - split.
    + apply (Nonempty _ 8220%N); [left; reflexivity|reflexivity].
    + apply (Nonempty _ 8212%N); [left; reflexivity|reflexivity].
Qed.

Lemma composed_text_has_one_blank_line_witness :
  let v := {| ref := [80; 115]%N; text := [84; 104; 121]%N |} in
  split 10 (buildFullText v) = [quotation v; []; citation v].
Proof.
  intros v.
  destruct (composed_text_has_one_blank_line
              (fun s => inject_Z (Z.of_nat (length s))) 292 v) as (H & _).
  apply H; reflexivity.
Defined.

End SketchFacts.
